(** * vi-paths: the reconciliation engine of [vi-paths.go]

    A shallow embedding of [src/vi-paths.go] and the verification of its
    specification.  Go strings are byte strings ([string]), slices are
    references into a store of arrays, the operating system is an
    environment answering calls, and a run leaves a trace of the calls it
    made. *)

From Stdlib Require Import NArith Ascii Sorted Permutation.
From stdpp Require Import gmap strings list sorting.

Local Open Scope N_scope.

(** ** The pieces of Go's [strings], [unicode] and [path/filepath] packages
    that [parseInstructions] calls *)

(** The target platform fixes [filepath.Separator]. *)
Inductive GOOS := unix | windows.

Definition Separator (os : GOOS) : ascii :=
  match os with
  | unix => "/"%char
  | windows => "\"%char
  end.

(** [strings.Count(s, string(c))] for a one-byte separator: the number of
    bytes of [s] equal to [c]. *)
Fixpoint Count (s : string) (c : ascii) : nat :=
  match s with
  | EmptyString => O
  | String x s' => if Ascii.eqb x c then S (Count s' c) else Count s' c
  end.

(** [unicode.IsSpace] on UTF-8 encoded text.  The white space runes are
    U+0009..U+000D, U+0020, U+0085, U+00A0, U+1680, U+2000..U+200A, U+2028,
    U+2029, U+202F, U+205F and U+3000; their encodings take one, two or
    three bytes. *)
Definition space1 (c : ascii) : bool :=
  let n := N_of_ascii c in
  ((9 <=? n) && (n <=? 13)) || (n =? 32).

Definition space2 (c1 c2 : ascii) : bool :=
  let n1 := N_of_ascii c1 in
  let n2 := N_of_ascii c2 in
  (n1 =? 194) && ((n2 =? 133) || (n2 =? 160)).

Definition space3 (c1 c2 c3 : ascii) : bool :=
  let n1 := N_of_ascii c1 in
  let n2 := N_of_ascii c2 in
  let n3 := N_of_ascii c3 in
  ((n1 =? 225) && (n2 =? 154) && (n3 =? 128))
  || ((n1 =? 226) && (n2 =? 128)
      && (((128 <=? n3) && (n3 <=? 138))
          || (n3 =? 168) || (n3 =? 169) || (n3 =? 175)))
  || ((n1 =? 226) && (n2 =? 129) && (n3 =? 159))
  || ((n1 =? 227) && (n2 =? 128) && (n3 =? 128)).

(** Leading white space is dropped rune by rune: the encoding of a white
    space rune goes, any other byte, an invalid one included, stays with
    all that follows. *)
Fixpoint trimLeft (s : string) : string :=
  match s with
  | EmptyString => EmptyString
  | String c1 s1 =>
      if space1 c1 then trimLeft s1
      else match s1 with
           | EmptyString => s
           | String c2 s2 =>
               if space2 c1 c2 then trimLeft s2
               else match s2 with
                    | EmptyString => s
                    | String c3 s3 => if space3 c1 c2 c3 then trimLeft s3 else s
                    end
           end
  end.

(** Trailing white space, on the reversed byte list: the last rune's bytes
    come first, last byte first. *)
Fixpoint trimLeftRev (l : list ascii) : list ascii :=
  match l with
  | [] => []
  | c1 :: l1 =>
      if space1 c1 then trimLeftRev l1
      else match l1 with
           | [] => l
           | c2 :: l2 =>
               if space2 c2 c1 then trimLeftRev l2
               else match l2 with
                    | [] => l
                    | c3 :: l3 => if space3 c3 c2 c1 then trimLeftRev l3 else l
                    end
           end
  end.

Definition trimRight (s : string) : string :=
  String.string_of_list_ascii
    (rev (trimLeftRev (rev (String.list_ascii_of_string s)))).

(** [strings.TrimSpace]: leading, then trailing white space goes. *)
Definition TrimSpace (s : string) : string := trimRight (trimLeft s).

(** [strings.HasPrefix(s, prefix)]. *)
Definition HasPrefix (s prefix : string) : bool := String.prefix prefix s.

(** [strings.TrimPrefix(s, prefix)]. *)
Definition TrimPrefix (s prefix : string) : string :=
  if HasPrefix s prefix
  then String.substring (String.length prefix)
         (String.length s - String.length prefix)%nat s
  else s.

(** A string made of white space runes only. *)
Inductive WhiteSpace : string -> Prop :=
| ws_nil : WhiteSpace EmptyString
| ws_1 c s : space1 c = true -> WhiteSpace s -> WhiteSpace (String c s)
| ws_2 c1 c2 s :
    space2 c1 c2 = true -> WhiteSpace s -> WhiteSpace (String c1 (String c2 s))
| ws_3 c1 c2 c3 s :
    space3 c1 c2 c3 = true -> WhiteSpace s ->
    WhiteSpace (String c1 (String c2 (String c3 s))).

(** ** Instructions *)

(** The three implementations of the [instruction] interface. *)
Inductive instruction :=
| rename (before after : string)
| remove (name : string)
| copy (from to : string).

Definition cmdCopy : string := "copy".

(** The path of the entry an instruction acts on. *)
Definition source (i : instruction) : string :=
  match i with
  | rename b _ => b
  | remove n => n
  | copy f _ => f
  end.

(** [depth] of [parseInstructions]; the count is at most the length of the
    path, so Go's [int] does not wrap. *)
Definition depth (os : GOOS) (path : string) : nat := Count path (Separator os).

(** The comparison handed to [multiSortStable]. *)
Definition deeper (os : GOOS) (a b : string) : bool :=
  Nat.ltb (depth os b) (depth os a).

(** The [switch] of the loop body of [parseInstructions], on one pair:
    the instruction appended, if any. *)
Definition classify (before_i after_i : string) : option instruction :=
  let before := TrimSpace before_i in
  let after := TrimSpace after_i in
  if HasPrefix after (cmdCopy +:+ " ") then
    Some (copy before (TrimSpace (TrimPrefix after cmdCopy)))
  else if String.eqb after "" then
    Some (remove before)
  else if negb (String.eqb after before) then
    Some (rename before after)
  else None.

(** ** Computations that change a state and may panic *)

Inductive outcome (A : Type) : Type :=
| Ret (a : A)
| Panic.
Arguments Ret {A} a.
Arguments Panic {A}.

Definition M (S A : Type) : Type := S -> outcome A * S.

Definition ret {S A : Type} (a : A) : M S A := fun s => (Ret a, s).

Definition bind {S A B : Type} (c : M S A) (k : A -> M S B) : M S B :=
  fun s =>
    match c s with
    | (Ret a, s') => k a s'
    | (Panic, s') => (Panic, s')
    end.

Declare Scope go_scope.
Delimit Scope go_scope with go.
Notation "'let*' x := c 'in' k" := (bind c (fun x => k))
  (at level 10, x pattern, c at level 100, k at level 200) : go_scope.
Notation "c ;;; k" := (bind c (fun _ => k))
  (at level 100, k at level 200, right associativity) : go_scope.
Local Open Scope go_scope.

(** [for _, x := range l { body x }]. *)
Fixpoint for_each {S A : Type} (l : list A) (body : A -> M S unit) : M S unit :=
  match l with
  | [] => ret tt
  | x :: l' => body x ;;; for_each l' body
  end.

(** ** Slices *)

(** A slice refers to an array of the store and spans it: offset and
    capacity are left out.  Two slices with the same reference share their
    elements. *)
Abbreviation slice := positive.
Abbreviation store T := (gmap slice (list T)).

Section Slices.
Context {T : Type}.
Local Abbreviation store := (store T).

Definition elements (h : store) (d : slice) : list T := default [] (h !! d).

(** [len(d)]. *)
Definition len (d : slice) : M store nat :=
  fun h => (Ret (length (elements h d)), h).

(** [d[i]], which panics out of range. *)
Definition index (d : slice) (i : nat) : M store T :=
  fun h =>
    match elements h d !! i with
    | Some x => (Ret x, h)
    | None => (Panic, h)
    end.

(** [d[i] = x], which panics out of range. *)
Definition assign (d : slice) (i : nat) (x : T) : M store unit :=
  fun h =>
    if bool_decide (i < length (elements h d))%nat
    then (Ret tt, <[d := <[i := x]> (elements h d)]> h)
    else (Panic, h).

(** ** [multiSortable] and Go's [sort.Stable] *)

Record multiSortable := {
  data : slice;
  extra : list slice;
  less : T -> T -> bool
}.

Definition Len (m : multiSortable) : M store nat := len (data m).

Definition Less (m : multiSortable) (i j : nat) : M store bool :=
  let* x := index (data m) i in
  let* y := index (data m) j in
  ret (less m x y).

(** [d[i], d[j] = d[j], d[i]] for [data] and then for every slice of
    [extra]: both operands are read, then both elements are written. *)
Definition Swap (m : multiSortable) (i j : nat) : M store unit :=
  for_each (data m :: extra m) (fun d =>
    let* x := index d j in
    let* y := index d i in
    assign d i x ;;;
    assign d j y).

(** The inner loop of the library's [insertionSort],
    [for j := i; j > a && data.Less(j, j-1); j-- { data.Swap(j, j-1) }]. *)
Fixpoint insertionSort_inner (m : multiSortable) (a j : nat) : M store unit :=
  match j with
  | O => ret tt
  | S j' =>
      if (a <? j)%nat then
        let* lt := Less m j j' in
        if lt then Swap m j j' ;;; insertionSort_inner m a j'
        else ret tt
      else ret tt
  end.

(** [insertionSort(data, a, b)]: [for i := a + 1; i < b; i++ { ... }]. *)
Definition insertionSort (m : multiSortable) (a b : nat) : M store unit :=
  for_each (seq (a + 1) (b - (a + 1))) (insertionSort_inner m a).

(** The library's [sort.Stable(data)], which sorts by [Less] through [Len],
    [Less] and [Swap] only and keeps equal elements in their original
    order.  The library runs [insertionSort] on blocks of 20 elements and
    merges the blocks; here [insertionSort] runs on the whole range, which
    is the library's code up to 20 elements and has the same result beyond,
    a stable sort having one result only (see [stable_order_unique]). *)
Definition Stable (m : multiSortable) : M store unit :=
  let* n := Len m in
  insertionSort m 0 n.

Definition multiSortStable
    (data : slice) (extra : list slice) (less : T -> T -> bool)
    : M store unit :=
  Stable {| data := data; extra := extra; less := less |}.
End Slices.

(** [for i := range d] with an accumulator, over the indices [l]. *)
Fixpoint for_fold {S A B : Type} (l : list A) (acc : B) (body : B -> A -> M S B)
    : M S B :=
  match l with
  | [] => ret acc
  | x :: l' => let* acc' := body acc x in for_fold l' acc' body
  end.

(** A reference that no array of the store has. *)
Definition unused {T : Type} (h : store T) : slice :=
  Pos.succ (foldr Pos.max 1%positive (map_to_list h).*1).

(** ** Errors *)

(** An error of a library package, or one built by [fmt.Errorf] from a
    format and its arguments. *)
Inductive error :=
| os_error (msg : string)
| Errorf (format : string) (args : list arg)
with arg :=
| arg_err (err : error)
| arg_str (s : string)
| arg_int (n : nat).

(** ** [parseInstructions] *)

Definition parseInstructions (os : GOOS) (before after : slice)
    : M (store string) (list instruction * option error) :=
  (* make sure we do the deepest operations first *)
  multiSortStable before [after] (deeper os) ;;;
  let* n := len before in
  let* instructions :=
    for_fold (seq 0 n) [] (fun instructions i =>
      let* b := index before i in
      let* a := index after i in
      ret (instructions ++ option_list (classify b a))) in
  ret (instructions, None).

(** ** The operating system *)

Record File := { fd : nat; Name : string }.

(** [fs.FileMode]: permission bits and type bits in 32 bits. *)
Record FileInfo := { Mode : N }.

Definition ModeDir : N := N.shiftl 1 31.
Definition ModeSymlink : N := N.shiftl 1 27.
Definition ModeDevice : N := N.shiftl 1 26.
Definition ModeNamedPipe : N := N.shiftl 1 25.
Definition ModeSocket : N := N.shiftl 1 24.
Definition ModeCharDevice : N := N.shiftl 1 21.
Definition ModeIrregular : N := N.shiftl 1 19.
Definition ModeType : N :=
  N.lor ModeDir (N.lor ModeSymlink (N.lor ModeNamedPipe (N.lor ModeSocket
    (N.lor ModeDevice (N.lor ModeCharDevice ModeIrregular))))).

Definition IsDir (fi : FileInfo) : bool := negb (N.land (Mode fi) ModeDir =? 0).
Definition IsRegular (fi : FileInfo) : bool := N.land (Mode fi) ModeType =? 0.

(** The calls the program makes to the packages [os], [os/exec], [bufio]
    and [log], each with the type of what it returns. *)
Inductive call : Type -> Type :=
| CreateTemp (dir pattern : string) : call (File + error)
| OsRemove (name : string) : call (option error)
| FileClose (f : File) : call (option error)
| FileWriteString (f : File) (s : string) : call (nat * option error)
| FileSeek (f : File) (offset : Z) (whence : nat) : call (Z * option error)
| CmdRun (name : string) (args : list string) : call (option error)
| ScanLines (f : File) : call (list string * option error)
| LogPrintf (s : string) : call unit
| MkdirAll (path : string) (perm : N) : call (option error)
| OsRename (oldpath newpath : string) : call (option error)
| RemoveAll (path : string) : call (option error)
| Stat (name : string) : call (FileInfo + error)
| ReadFile (name : string) : call (string + error)
| WriteFile (name data : string) (perm : N) : call (option error).

(** A call that was made, with what it returned. *)
Inductive event :=
| Event {R : Type} (c : call R) (r : R).

(** What a run has changed: the arrays of its slices and the calls made. *)
Record state := { mem : store string; trace : list event }.

Definition program : string := "vi-paths".

Definition newline : string := String (ascii_of_N 10) EmptyString.

Definition io_SeekStart : nat := 0.

(** The state after the call [c]. *)
Definition called (respond : forall R : Type, list event -> call R -> R)
    {R : Type} (c : call R) (s : state) : state :=
  {| mem := mem s; trace := trace s ++ [Event c (respond R (trace s) c)] |}.

Section Run.
(** The environment: what each call returns after the calls made so far.
    [Dir] and [Base] are [filepath.Dir] and [filepath.Base]. *)
Variable respond : forall R : Type, list event -> call R -> R.
Variable Dir : string -> string.
Variable Base : string -> string.
Variable os : GOOS.

(** The call [c]: its result is what the environment returns after the
    calls made so far, and the call joins them. *)
Definition perform {R : Type} (c : call R) : M state R :=
  fun s => (Ret (respond R (trace s) c), called respond c s).

(** A computation on the slices alone. *)
Definition on_mem {A : Type} (c : M (store string) A) : M state A :=
  fun s =>
    let (o, h) := c (mem s) in
    (o, {| mem := h; trace := trace s |}).

(** A new slice with the elements [l]. *)
Definition new_slice (l : list string) : M state slice :=
  fun s =>
    let d := unused (mem s) in
    (Ret d, {| mem := <[d := l]> (mem s); trace := trace s |}).

(** [defer d] before [body]: [d] runs when [body] is over, also after a
    panic, and what it returns is dropped. *)
Definition defer {A B : Type} (d : M state B) (body : M state A) : M state A :=
  fun s =>
    let (o, s') := body s in
    (o, snd (d s')).

(** *** The [String] methods *)

Definition instruction_String (i : instruction) : string :=
  match i with
  | rename before after =>
      "rename " +:+ before +:+ newline +:+ "    -> " +:+ after
  | remove name => "remove " +:+ name
  | copy from to => "copy " +:+ from +:+ newline +:+ "  -> " +:+ to
  end.

(** *** The [Execute] methods *)

Definition rename_Execute (before after : string) : M state (option error) :=
  let* e := perform (MkdirAll (Dir after) 493) in
  match e with
  | Some err => ret (Some (Errorf "exe mkdirall: %w" [arg_err err]))
  | None =>
      let* e := perform (OsRename before after) in
      match e with
      | Some err => ret (Some (Errorf "exe rename: %w" [arg_err err]))
      | None => ret None
      end
  end.

Definition remove_Execute (name : string) : M state (option error) :=
  let* e := perform (RemoveAll name) in
  match e with
  | Some err => ret (Some (Errorf "exe remove all: %w" [arg_err err]))
  | None => ret None
  end.

Definition copy_Execute (from to : string) : M state (option error) :=
  let* r := perform (Stat from) in
  match r with
  | inr err => ret (Some (Errorf "exe stat: %w" [arg_err err]))
  | inl stat =>
      if IsDir stat then
        let* e := perform (MkdirAll to (Mode stat)) in
        match e with
        | Some err => ret (Some (Errorf "exe mkdirall: %w" [arg_err err]))
        | None => ret None
        end
      else
        let* r := perform (Stat (Dir from)) in
        match r with
        | inr err => ret (Some (Errorf "exe stat: %w" [arg_err err]))
        | inl parentStat =>
            let* e := perform (MkdirAll (Dir to) (Mode parentStat)) in
            match e with
            | Some err => ret (Some (Errorf "exe mkdirall: %w" [arg_err err]))
            | None =>
                let* r := perform (ReadFile from) in
                match r with
                | inr err => ret (Some (Errorf "exe read: %w" [arg_err err]))
                | inl input =>
                    let* e := perform (WriteFile to input (Mode stat)) in
                    match e with
                    | Some err =>
                        ret (Some (Errorf "exe write: %w" [arg_err err]))
                    | None => ret None
                    end
                end
            end
        end
  end.

Definition Execute (i : instruction) : M state (option error) :=
  match i with
  | rename before after => rename_Execute before after
  | remove name => remove_Execute name
  | copy from to => copy_Execute from to
  end.

(** *** [editPaths] *)

Definition editPaths (tmp : File) (editor : string) (before : slice)
    : M state (slice + error) :=
  let* names := on_mem (fun h => (Ret (elements h before), h)) in
  for_each names (fun name =>
    let* _ := perform (FileWriteString tmp (name +:+ newline)) in ret tt) ;;;
  let* e := perform (CmdRun editor [Name tmp]) in
  match e with
  | Some err =>
      ret (inr (Errorf "running %q: %v" [arg_str editor; arg_err err]))
  | None =>
      let* _ := perform (FileSeek tmp 0 io_SeekStart) in
      let* scanned := perform (ScanLines tmp) in
      let* after := new_slice (fst scanned) in
      ret (inl after)
  end.

(** *** [run] *)

(** The loop of [run] over the instructions. *)
Fixpoint run_loop (dryRun : bool) (instructions : list instruction)
    : M state (option error) :=
  match instructions with
  | [] => ret None
  | i :: rest =>
      perform (LogPrintf (instruction_String i)) ;;;
      if dryRun then run_loop dryRun rest
      else
        let* e := Execute i in
        match e with
        | Some err => ret (Some (Errorf "executing: %w" [arg_err err]))
        | None => run_loop dryRun rest
        end
  end.

(** The body of [run] from the call of [editPaths] on, which runs with
    the two deferred calls pending. *)
Definition run_edited (before : slice) (editor : string) (dryRun : bool)
    (tmp : File) : M state (option error) :=
  let* r := editPaths tmp editor before in
  match r with
  | inr err => ret (Some (Errorf "editing paths: %w" [arg_err err]))
  | inl after =>
      let* n_after := on_mem (len after) in
      let* n_before := on_mem (len before) in
      if negb (n_after =? n_before)%nat then
        ret (Some (Errorf "line count mismatch: before %d, after %d"
                     [arg_int n_before; arg_int n_after]))
      else
        let* r := on_mem (parseInstructions os before after) in
        match r with
        | (_, Some err) =>
            ret (Some (Errorf "parse instructions: %w" [arg_err err]))
        | (instructions, None) => run_loop dryRun instructions
        end
  end.

Definition run (before : slice) (editor : string) (dryRun : bool)
    : M state (option error) :=
  let* r := perform (CreateTemp "" (Base program)) in
  match r with
  | inr err => ret (Some (Errorf "creating temp file: %w" [arg_err err]))
  | inl tmp =>
      defer (perform (OsRemove (Name tmp)))
        (defer (perform (FileClose tmp))
           (run_edited before editor dryRun tmp))
  end.
End Run.

(** ** The result of the sort, as a function on lists *)

Section StableSort.
Context {A : Type} (lt : A -> A -> bool).

(** [y] enters the reversed sorted prefix [r] (its last element first) and
    passes every element it is less than. *)
Fixpoint pass (y : A) (r : list A) : list A :=
  match r with
  | [] => [y]
  | x :: r' => if lt y x then x :: pass y r' else y :: x :: r'
  end.

(** [y] placed from the right into the sorted prefix [xs]. *)
Definition place (y : A) (xs : list A) : list A := rev (pass y (rev xs)).

Definition stable_sort (l : list A) : list A :=
  fold_left (fun sorted y => place y sorted) l [].
End StableSort.

(** A comparison of [data] elements, on elements paired with those of an
    [extra] slice or with the index they had at the call. *)
Definition on_fst {T B : Type} (lt : T -> T -> bool) (p q : T * B) : bool :=
  lt p.1 q.1.

(** The instructions the loop of [parseInstructions] appends for the pairs
    [ps], in their order. *)
Definition instructions_of (ps : list (string * string)) : list instruction :=
  mjoin ((fun p => option_list (classify p.1 p.2)) <$> ps).

(** The store in which [d] holds the first and [e] the second components of
    [ps]. *)
Definition set_pairs {T : Type} (h : store T) (d e : slice) (ps : list (T * T))
    : store T :=
  <[e := ps.*2]> (<[d := ps.*1]> h).

(** The order in which [parseInstructions] visits the indices of [before]:
    [i] comes before [j] when [before[i]] is deeper than [before[j]], or as
    deep and [i < j]. *)
Definition visits_before (os : GOOS) (before : list string) (i j : nat)
    : Prop :=
  (depth os (before !!! j) < depth os (before !!! i))%nat
  \/ (depth os (before !!! i) = depth os (before !!! j) /\ (i < j)%nat).

(** The indices of [before] in the order of the sort. *)
Definition sort_order (os : GOOS) (before : list string) : list nat :=
  (stable_sort (on_fst (deeper os)) (zip before (seq 0 (length before)))).*2.

(** The instruction of the pair at index [i], if any. *)
Definition instruction_at (before after : list string) (i : nat)
    : list instruction :=
  option_list (classify (before !!! i) (after !!! i)).

(** Elements with a sort key and the index they had before the sort:
    [x] may stand before [y] after a stable sort by decreasing key. *)
Definition key_gt {B : Type} (key : B -> nat) (x y : B) : bool :=
  (key y <? key x)%nat.

Definition placed_before {B : Type} (key tag : B -> nat) (x y : B) : Prop :=
  (key y < key x)%nat \/ (key x = key y /\ (tag x < tag y)%nat).

(** The instructions of the pairs at the indices [p], in the order of [p]. *)
Definition instructions_in (before after : list string) (p : list nat)
    : list instruction :=
  mjoin (instruction_at before after <$> p).

(** The elements of [l] at the indices [p]. *)
Definition permuted (l : list string) (p : list nat) : list string :=
  (fun i => l !!! i) <$> p.

(** ** States of a run *)

(** The state after the deferred calls of [run]: [tmp.Close()], then
    [os.Remove(tmp.Name())]. *)
Definition after_deferred (respond : forall R : Type, list event -> call R -> R)
    (tmp : File) (s : state) : state :=
  called respond (OsRemove (Name tmp)) (called respond (FileClose tmp) s).

(** ** Environments *)

Definition scratch : File := {| fd := 3; Name := "/tmp/vi-paths1" |}.

(** Every call succeeds, and the editor leaves [lines] in the scratch
    file. *)
Definition answers (lines : list string) (R : Type) (c : call R) : R :=
  match c in call R return R with
  | CreateTemp _ _ => inl scratch
  | OsRemove _ => None
  | FileClose _ => None
  | FileWriteString _ s => (String.length s, None)
  | FileSeek _ offset _ => (offset, None)
  | CmdRun _ _ => None
  | ScanLines _ => (lines, None)
  | LogPrintf _ => tt
  | MkdirAll _ _ => None
  | OsRename _ _ => None
  | RemoveAll _ => None
  | Stat _ => inl {| Mode := 420 |}
  | ReadFile _ => inl ""
  | WriteFile _ _ _ => None
  end.

Definition all_succeed (lines : list string)
    : forall R : Type, list event -> call R -> R :=
  fun R _ c => answers lines R c.

(** As [all_succeed], but [os.RemoveAll(name)] fails. *)
Definition remove_fails (name : string) (lines : list string)
    : forall R : Type, list event -> call R -> R :=
  fun R _ c =>
    match c in call R return R with
    | RemoveAll path =>
        if String.eqb path name then Some (os_error "permission denied")
        else None
    | c' => answers lines _ c'
    end.

(** As [all_succeed], but no write to the scratch file succeeds. *)
Definition write_fails (lines : list string)
    : forall R : Type, list event -> call R -> R :=
  fun R _ c =>
    match c in call R return R with
    | FileWriteString _ _ => (O, Some (os_error "no space left on device"))
    | c' => answers lines _ c'
    end.

(** As [all_succeed], but every path has the mode [mode]. *)
Definition with_mode (mode : N) (lines : list string)
    : forall R : Type, list event -> call R -> R :=
  fun R _ c =>
    match c in call R return R with
    | Stat _ => inl {| Mode := mode |}
    | c' => answers lines _ c'
    end.

(** As [all_succeed], but the scanner stops on an error after [lines]. *)
Definition scan_fails (lines : list string)
    : forall R : Type, list event -> call R -> R :=
  fun R _ c =>
    match c in call R return R with
    | ScanLines _ => (lines, Some (os_error "bufio.Scanner: token too long"))
    | c' => answers lines _ c'
    end.

(** [filepath.Dir] and [filepath.Base] on the paths of the examples, which
    are clean and have no trailing separator: the part before the last
    separator. *)
Fixpoint before_last_separator (s : string) : option string :=
  match s with
  | EmptyString => None
  | String c s' =>
      match before_last_separator s' with
      | Some d => Some (String c d)
      | None => if Ascii.eqb c "/"%char then Some EmptyString else None
      end
  end.

Definition example_Dir (s : string) : string :=
  match before_last_separator s with
  | Some EmptyString => "/"
  | Some d => d
  | None => "."
  end.

Definition example_Base (s : string) : string := s.

(** A line of a space, a tabulation and a space. *)
Definition blank : string := String " " (String (ascii_of_N 9) " ").

(** The mode of a directory and the mode of a character device. *)
Definition directory_mode : N := N.lor ModeDir 493.
Definition device_mode : N := N.lor (N.lor ModeDevice ModeCharDevice) 438.

(** A store with [before] at slice 1 and [after] at slice 2. *)
Definition two_slices (before after : list string) : store string :=
  <[2%positive := after]> (<[1%positive := before]> ∅).

(** The state of a run that starts with [before] at slice 1. *)
Definition start (before : list string) : state :=
  {| mem := <[1%positive := before]> ∅; trace := [] |}.

(** ** Auxiliary notions *)

(** The number of bytes of [l] equal to [c]. *)
Fixpoint count_bytes (l : list ascii) (c : ascii) : nat :=
  match l with
  | [] => O
  | x :: l' => if Ascii.eqb x c then S (count_bytes l' c) else count_bytes l' c
  end.

(** A one-byte rune that is no white space, as both separators are. *)
Definition plain (c : ascii) : Prop := N_of_ascii c < 128 /\ space1 c = false.

(** Every array of [h'] is as long as it is in [h]. *)
Definition same_lengths {T : Type} (h h' : store T) : Prop :=
  forall y, length (elements h' y) = length (elements h y).

(** Every slice of [l] has at least [n] elements. *)
Definition covers {T : Type} (h : store T) (l : list slice) (n : nat) : Prop :=
  forall d, d ∈ l -> (n <= length (elements h d))%nat.

Local Open Scope nat_scope.

(** ** The entry point *)

(** [log.Fatalf(format, args...)]: the message is logged and the process
    exits with status 1. *)
Inductive fatal :=
| Fatalf (format : string) (args : list arg).

(** What [main] reads of its process: the flags as [flag.Parse] parsed them
    (on a command line it refuses, [flag.Parse] exits before [main] goes
    on), the environment variables, and the programs of [$PATH]. *)
Record process := {
  flag_dry_run : bool;
  flag_Args : slice;
  LookupEnv : string -> option string;
  LookPath : string -> string + error
}.

Definition no_paths : string :=
  "please provide a list of paths" +:+ newline
  +:+ "for example using your shell's path globbing like ./**".

(** [main], which returns the [log.Fatalf] it ends with, if any: nothing of
    [main] runs after one. *)
Definition main (respond : forall R : Type, list event -> call R -> R)
    (Dir Base : string -> string) (os : GOOS) (p : process)
    : M state (option fatal) :=
  let dryRun := flag_dry_run p in
  let paths := flag_Args p in
  let* n := on_mem (len paths) in
  if (n =? 0)%nat then ret (Some (Fatalf no_paths []))
  else
    match LookupEnv p "EDITOR" with
    | None => ret (Some (Fatalf "$EDITOR not set" []))
    | Some editor =>
        match LookPath p editor with
        | inr _ =>
            ret (Some (Fatalf "$EDITOR %q not found in $PATH" [arg_str editor]))
        | inl _ =>
            let* e := run respond Dir Base os paths editor dryRun in
            match e with
            | Some err => ret (Some (Fatalf "running: %v" [arg_err err]))
            | None => ret None
            end
        end
    end.

(** ** Notions of the further properties *)

(** The calls that only the [Execute] methods make: those that read or
    change the paths. *)
Definition touches_paths (ev : event) : bool :=
  match ev with
  | Event c _ =>
      match c with
      | MkdirAll _ _ | OsRename _ _ | RemoveAll _ | Stat _
      | ReadFile _ | WriteFile _ _ _ => true
      | _ => false
      end
  end.

(** The error a call returned, if it returned one. *)
Definition failure (ev : event) : option error :=
  match ev with
  | Event c r =>
      match c in call R return R -> option error with
      | CreateTemp _ _ =>
          fun r => match r with inl _ => None | inr e => Some e end
      | OsRemove _ => fun r => r
      | FileClose _ => fun r => r
      | FileWriteString _ _ => fun r => r.2
      | FileSeek _ _ _ => fun r => r.2
      | CmdRun _ _ => fun r => r
      | ScanLines _ => fun r => r.2
      | LogPrintf _ => fun _ => None
      | MkdirAll _ _ => fun r => r
      | OsRename _ _ => fun r => r
      | RemoveAll _ => fun r => r
      | Stat _ =>
          fun r => match r with inl _ => None | inr e => Some e end
      | ReadFile _ =>
          fun r => match r with inl _ => None | inr e => Some e end
      | WriteFile _ _ _ => fun r => r
      end r
  end.

(** A call that was made, without what it returned. *)
Inductive made :=
| Made {R : Type} (c : call R).

Definition made_of (ev : event) : made :=
  match ev with
  | Event c _ => Made c
  end.

(** The index that [Swap(i, j)] moves to [k]. *)
Definition exchanged (i j k : nat) : nat :=
  if decide (k = i) then j else if decide (k = j) then i else k.

(** The state of a computation always stands in the relation [R] to the
    state it started from. *)
Definition preserves {S A : Type} (R : S -> S -> Prop) (c : M S A) : Prop :=
  forall s, R s (c s).2.

(** The calls of the [Execute] methods made so far are those of [s]. *)
Definition same_changes (s s' : state) : Prop :=
  filter (fun ev => touches_paths ev = true) (trace s')
  = filter (fun ev => touches_paths ev = true) (trace s).

(** The computation [c] never panics. *)
Definition no_panic {S A : Type} (c : M S A) : Prop :=
  forall s, (c s).1 ≠ Panic.

(** A store with three slices, at 1, 2 and 3. *)
Definition three_slices (a b c : list string) : store string :=
  <[3%positive := c]> (two_slices a b).

(** A process started with [-dry-run], the paths at slice 1 and [vi] as
    editor. *)
Definition dry_process : process :=
  {| flag_dry_run := true;
     flag_Args := 1%positive;
     LookupEnv := fun name =>
       if String.eqb name "EDITOR" then Some "vi" else None;
     LookPath := fun file => inl ("/usr/bin/" +:+ file) |}.


(** [a] may stand before [b] in a slice sorted by [lt]. *)
Definition in_order {T : Type} (lt : T -> T -> bool) (a b : T) : Prop :=
  lt b a = false.

(** * Verification *)

(** ** Steps of a computation *)

Lemma bind_Ret {S A B : Type} (c : M S A) (k : A -> M S B) s a s' :
  c s = (Ret a, s') -> bind c k s = k a s'.
Proof. intros H. unfold bind. by rewrite H. Qed.

Section SliceFacts.
Context {T : Type}.
Implicit Types (h : store T) (d e : slice) (ps : list (T * T)).

Lemma elements_set_pairs_1 h d e ps :
  d ≠ e -> elements (set_pairs h d e ps) d = ps.*1.
Proof.
  intros Hne. unfold elements, set_pairs.
  rewrite lookup_insert_ne by done. by rewrite lookup_insert_eq.
Qed.

Lemma elements_set_pairs_2 h d e ps :
  elements (set_pairs h d e ps) e = ps.*2.
Proof. unfold elements, set_pairs. by rewrite lookup_insert_eq. Qed.

Lemma set_pairs_twice h d e ps ps' :
  d ≠ e -> set_pairs (set_pairs h d e ps) d e ps' = set_pairs h d e ps'.
Proof.
  intros Hne. unfold set_pairs.
  rewrite (insert_insert_ne _ e d) by done.
  rewrite insert_insert_eq.
  rewrite (insert_insert_ne _ d e) by done.
  by rewrite insert_insert_eq.
Qed.

Lemma index_Ret h d i x :
  elements h d !! i = Some x -> index d i h = (Ret x, h).
Proof. intros H. unfold index. by rewrite H. Qed.

Lemma assign_Ret h d i x :
  (i < length (elements h d))%nat ->
  assign d i x h = (Ret tt, <[d := <[i := x]> (elements h d)]> h).
Proof. intros H. unfold assign. by rewrite bool_decide_true. Qed.
End SliceFacts.

(** ** [Swap] on two neighbours *)

Section SwapFacts.
Context {T : Type}.
Implicit Types (h : store T) (d e : slice) (ps : list (T * T)).

Lemma adjacent_lookup_l {B : Type} (xs : list B) x y rest :
  (xs ++ x :: y :: rest) !! length xs = Some x.
Proof. by rewrite lookup_app_r, Nat.sub_diag by lia. Qed.

Lemma adjacent_lookup_r {B : Type} (xs : list B) x y rest :
  (xs ++ x :: y :: rest) !! S (length xs) = Some y.
Proof.
  rewrite lookup_app_r by lia.
  by replace (S (length xs) - length xs)%nat with 1%nat by lia.
Qed.

Lemma adjacent_swap {B : Type} (xs : list B) x y rest :
  <[length xs := y]> (<[S (length xs) := x]> (xs ++ x :: y :: rest))
  = xs ++ y :: x :: rest.
Proof.
  rewrite !insert_app_r_alt by lia.
  replace (S (length xs) - length xs)%nat with 1%nat by lia.
  by rewrite Nat.sub_diag.
Qed.

Lemma elements_insert h d (l : list T) : elements (<[d := l]> h) d = l.
Proof. unfold elements. by rewrite lookup_insert_eq. Qed.

Lemma elements_insert_ne h d e (l : list T) :
  d ≠ e -> elements (<[d := l]> h) e = elements h e.
Proof. intros. unfold elements. by rewrite lookup_insert_ne. Qed.

Lemma swap_elements h d (xs : list T) x y rest :
  elements h d = xs ++ x :: y :: rest ->
  (let* a := index d (length xs) in
   let* b := index d (S (length xs)) in
   assign d (S (length xs)) a ;;;
   assign d (length xs) b) h
  = (Ret tt, <[d := xs ++ y :: x :: rest]> h).
Proof.
  intros Hd.
  rewrite (bind_Ret _ _ h x h)
    by (apply index_Ret; rewrite Hd; apply adjacent_lookup_l).
  rewrite (bind_Ret _ _ h y h)
    by (apply index_Ret; rewrite Hd; apply adjacent_lookup_r).
  erewrite bind_Ret; last first.
  { apply assign_Ret. rewrite Hd, length_app. simpl. lia. }
  rewrite assign_Ret; last first.
  { rewrite elements_insert, length_insert, Hd, length_app. simpl. lia. }
  rewrite elements_insert, insert_insert_eq, Hd. by rewrite adjacent_swap.
Qed.

Lemma Swap_adjacent h d e lt (xs : list (T * T)) x y rest :
  d ≠ e ->
  Swap {| data := d; extra := [e]; less := lt |} (S (length xs)) (length xs)
    (set_pairs h d e (xs ++ x :: y :: rest))
  = (Ret tt, set_pairs h d e (xs ++ y :: x :: rest)).
Proof.
  intros Hne. unfold Swap. simpl.
  pose proof (swap_elements (set_pairs h d e (xs ++ x :: y :: rest)) d
                (xs.*1) x.1 y.1 (rest.*1)) as H1.
  rewrite length_fmap in H1.
  erewrite bind_Ret; last first.
  { apply H1. rewrite elements_set_pairs_1 by done.
    by rewrite fmap_app. }
  clear H1.
  set (h1 := <[d := _]> _).
  pose proof (swap_elements h1 e (xs.*2) x.2 y.2 (rest.*2)) as H2.
  rewrite length_fmap in H2.
  erewrite bind_Ret; last first.
  { apply H2. unfold h1. rewrite elements_insert_ne by done.
    rewrite elements_set_pairs_2. by rewrite fmap_app. }
  unfold ret. f_equal.
  rewrite <- (set_pairs_twice h d e (xs ++ x :: y :: rest)
                (xs ++ y :: x :: rest)) by done.
  unfold h1. generalize (set_pairs h d e (xs ++ x :: y :: rest)). intros h'.
  unfold set_pairs. by rewrite !fmap_app.
Qed.
End SwapFacts.

(** ** An element placed from the right *)

Section PlaceFacts.
Context {A : Type} (lt : A -> A -> bool).

Lemma place_nil y : place lt y [] = [y].
Proof. reflexivity. Qed.

Lemma place_snoc y xs x :
  place lt y (xs ++ [x])
  = if lt y x then place lt y xs ++ [x] else xs ++ [x; y].
Proof.
  unfold place. rewrite rev_app_distr. simpl.
  destruct (lt y x); simpl.
  - done.
  - rewrite rev_involutive. by rewrite <- app_assoc.
Qed.

Lemma length_place y xs : length (place lt y xs) = S (length xs).
Proof.
  induction xs as [|x xs IH] using rev_ind; [done|].
  rewrite place_snoc. destruct (lt y x); rewrite !length_app; simpl; lia.
Qed.
End PlaceFacts.

(** ** [insertionSort] and [Stable] on [data] and one more slice *)

Section SortFacts.
Context {T : Type}.
Implicit Types (h : store T) (d e : slice) (ps : list (T * T)).

Lemma Less_Ret h (m : multiSortable) i j a b :
  elements h (data m) !! i = Some a ->
  elements h (data m) !! j = Some b ->
  Less m i j h = (Ret (less m a b), h).
Proof.
  intros Hi Hj. unfold Less.
  rewrite (bind_Ret _ _ h a h) by (by apply index_Ret).
  by rewrite (bind_Ret _ _ h b h) by (by apply index_Ret).
Qed.

Lemma insertionSort_inner_place h d e lt xs y rest :
  d ≠ e ->
  insertionSort_inner {| data := d; extra := [e]; less := lt |} 0 (length xs)
    (set_pairs h d e (xs ++ y :: rest))
  = (Ret tt, set_pairs h d e (place (on_fst lt) y xs ++ rest)).
Proof.
  intros Hne. revert rest.
  induction xs as [|x xs IH] using rev_ind; intros rest; [done|].
  rewrite length_app, Nat.add_1_r, <- app_assoc. simpl.
  erewrite bind_Ret; last first.
  { apply Less_Ret; simpl; rewrite elements_set_pairs_1 by done.
    - rewrite <- (length_fmap fst xs), fmap_app. apply adjacent_lookup_r.
    - rewrite <- (length_fmap fst xs), fmap_app. apply adjacent_lookup_l. }
  simpl. rewrite place_snoc. unfold on_fst at 1.
  destruct (lt y.1 x.1).
  - erewrite bind_Ret by (by apply Swap_adjacent).
    rewrite IH. by rewrite <- app_assoc.
  - by rewrite <- app_assoc.
Qed.

Lemma insertionSort_rest h d e lt sorted rest :
  d ≠ e ->
  for_each (seq (length sorted) (length rest))
    (insertionSort_inner {| data := d; extra := [e]; less := lt |} 0)
    (set_pairs h d e (sorted ++ rest))
  = (Ret tt,
     set_pairs h d e
       (fold_left (fun s y => place (on_fst lt) y s) rest sorted)).
Proof.
  intros Hne. revert sorted.
  induction rest as [|y rest IH]; intros sorted; simpl.
  - by rewrite app_nil_r.
  - erewrite bind_Ret by (by apply insertionSort_inner_place).
    rewrite <- (length_place (on_fst lt) y sorted). apply IH.
Qed.

Lemma Stable_stable_sort h d e lt ps :
  d ≠ e ->
  Stable {| data := d; extra := [e]; less := lt |} (set_pairs h d e ps)
  = (Ret tt, set_pairs h d e (stable_sort (on_fst lt) ps)).
Proof.
  intros Hne. unfold Stable.
  erewrite bind_Ret by reflexivity.
  simpl. rewrite elements_set_pairs_1, length_fmap by done.
  unfold insertionSort. destruct ps as [|p rest]; [done|].
  simpl length.
  replace (S (length rest) - (0 + 1))%nat with (length rest) by lia.
  apply (insertionSort_rest h d e lt [p] rest Hne).
Qed.

Lemma set_pairs_zip h d e (l k : list T) :
  h !! d = Some l -> h !! e = Some k -> length l = length k ->
  set_pairs h d e (zip l k) = h.
Proof.
  intros Hd He Hlen. unfold set_pairs.
  rewrite fst_zip, snd_zip by lia.
  rewrite (insert_id h d l) by done. by apply insert_id.
Qed.
End SortFacts.

(** ** The loop of [parseInstructions] *)

Lemma instructions_of_cons p ps :
  instructions_of (p :: ps)
  = option_list (classify p.1 p.2) ++ instructions_of ps.
Proof. reflexivity. Qed.

Lemma parse_loop (h : store string) d e pre rest acc :
  d ≠ e ->
  for_fold (seq (length pre) (length rest)) acc
    (fun instructions i =>
       let* b := index d i in
       let* a := index e i in
       ret (instructions ++ option_list (classify b a)))
    (set_pairs h d e (pre ++ rest))
  = (Ret (acc ++ instructions_of rest), set_pairs h d e (pre ++ rest)).
Proof.
  intros Hne. revert pre acc.
  induction rest as [|p rest IH]; intros pre acc; simpl.
  - unfold ret, instructions_of. simpl. by rewrite !app_nil_r.
  - set (s := set_pairs h d e (pre ++ p :: rest)).
    assert (Hb : index d (length pre) s = (Ret p.1, s)).
    { apply index_Ret. unfold s. rewrite elements_set_pairs_1 by done.
      rewrite list_lookup_fmap, lookup_app_r, Nat.sub_diag by lia. done. }
    assert (Ha : index e (length pre) s = (Ret p.2, s)).
    { apply index_Ret. unfold s. rewrite elements_set_pairs_2.
      rewrite list_lookup_fmap, lookup_app_r, Nat.sub_diag by lia. done. }
    erewrite bind_Ret; last first.
    { erewrite bind_Ret by exact Hb. erewrite bind_Ret by exact Ha.
      reflexivity. }
    unfold s. replace (pre ++ p :: rest) with ((pre ++ [p]) ++ rest)
      by (by rewrite <- app_assoc).
    replace (S (length pre)) with (length (pre ++ [p]))
      by (rewrite length_app; simpl; lia).
    rewrite IH. by rewrite instructions_of_cons, app_assoc.
Qed.

Theorem parseInstructions_sorted os (h : store string) d e ps :
  d ≠ e ->
  parseInstructions os d e (set_pairs h d e ps)
  = (Ret (instructions_of (stable_sort (on_fst (deeper os)) ps), None),
     set_pairs h d e (stable_sort (on_fst (deeper os)) ps)).
Proof.
  intros Hne. unfold parseInstructions, multiSortStable.
  erewrite bind_Ret by (by apply Stable_stable_sort).
  set (ps' := stable_sort _ ps).
  erewrite bind_Ret by reflexivity.
  rewrite elements_set_pairs_1, length_fmap by done.
  pose proof (parse_loop h d e [] ps' [] Hne) as H. simpl in H.
  erewrite bind_Ret by exact H. done.
Qed.

(** ** The sort on lists: a permutation, natural, stable *)

Section StableSortFacts.
Context {A : Type} (lt : A -> A -> bool).

Lemma place_Permutation y xs : place lt y xs ≡ₚ xs ++ [y].
Proof.
  induction xs as [|x xs IH] using rev_ind; [done|].
  rewrite place_snoc. destruct (lt y x); [|by rewrite <- app_assoc].
  rewrite IH, <- !app_assoc. apply Permutation_app_head, perm_swap.
Qed.

Lemma fold_place_Permutation l sorted :
  fold_left (fun s y => place lt y s) l sorted ≡ₚ sorted ++ l.
Proof.
  revert sorted. induction l as [|y l IH]; intros sorted; simpl.
  - by rewrite app_nil_r.
  - rewrite IH, place_Permutation. by rewrite <- app_assoc.
Qed.

Lemma stable_sort_Permutation l : stable_sort lt l ≡ₚ l.
Proof. apply (fold_place_Permutation l []). Qed.

Lemma length_stable_sort l : length (stable_sort lt l) = length l.
Proof. by rewrite stable_sort_Permutation. Qed.
End StableSortFacts.

Section Naturality.
Context {A B : Type} (f : B -> A).
Context (ltA : A -> A -> bool) (ltB : B -> B -> bool).
Hypothesis lt_f : forall x y, ltB x y = ltA (f x) (f y).

Lemma pass_fmap y r : f <$> pass ltB y r = pass ltA (f y) (f <$> r).
Proof.
  induction r as [|x r IH]; [done|].
  simpl. rewrite <- lt_f. destruct (ltB y x); csimpl; by rewrite ?IH.
Qed.

Lemma fmap_rev (l : list B) : f <$> rev l = rev (f <$> l).
Proof.
  induction l as [|x l IH]; [done|].
  csimpl. by rewrite fmap_app, IH.
Qed.

Lemma place_fmap y xs : f <$> place ltB y xs = place ltA (f y) (f <$> xs).
Proof. unfold place. by rewrite fmap_rev, pass_fmap, fmap_rev. Qed.

Lemma fold_place_fmap l sorted :
  f <$> fold_left (fun s y => place ltB y s) l sorted
  = fold_left (fun s y => place ltA y s) (f <$> l) (f <$> sorted).
Proof.
  revert sorted. induction l as [|y l IH]; intros sorted; [done|].
  csimpl. rewrite IH. by rewrite place_fmap.
Qed.

Lemma stable_sort_fmap l : f <$> stable_sort ltB l = stable_sort ltA (f <$> l).
Proof. apply (fold_place_fmap l []). Qed.
End Naturality.

Section Stability.
Context {B : Type} (key tag : B -> nat).

Lemma placed_before_trans x y z :
  placed_before key tag x y -> placed_before key tag y z ->
  placed_before key tag x z.
Proof. unfold placed_before. lia. Qed.

Lemma StronglySorted_snoc (R : relation B) l x :
  StronglySorted R l -> Forall (fun z => R z x) l ->
  StronglySorted R (l ++ [x]).
Proof.
  intros Hl Hx. apply StronglySorted_app_2; [|done|repeat constructor].
  intros x1 x2 H1 H2. apply list_elem_of_singleton in H2 as ->.
  by apply (proj1 (Forall_forall _ _) Hx).
Qed.

Lemma place_sorted y xs :
  StronglySorted (placed_before key tag) xs ->
  Forall (fun x => (tag x < tag y)%nat) xs ->
  StronglySorted (placed_before key tag) (place (key_gt key) y xs).
Proof.
  induction xs as [|x xs IH] using rev_ind; intros Hs Ht.
  { repeat constructor. }
  rewrite place_snoc.
  apply StronglySorted_app in Hs as (Hlast & Hxs & _).
  apply Forall_app in Ht as [Ht Hx]. rewrite Forall_singleton in Hx.
  unfold key_gt at 1. destruct (Nat.ltb_spec (key x) (key y)) as [Hlt|Hge].
  - apply StronglySorted_snoc; [by apply IH|].
    apply Forall_forall. intros z Hz.
    rewrite place_Permutation in Hz. apply elem_of_app in Hz as [Hz|Hz].
    + apply Hlast; [done|]. by apply list_elem_of_singleton.
    + apply list_elem_of_singleton in Hz as ->. left. done.
  - replace (xs ++ [x; y]) with ((xs ++ [x]) ++ [y])
      by (by rewrite <- app_assoc).
    assert (Hxy : placed_before key tag x y) by (unfold placed_before; lia).
    apply StronglySorted_snoc.
    + apply StronglySorted_snoc; [done|].
      apply Forall_forall. intros z Hz. apply Hlast; [done|].
      by apply list_elem_of_singleton.
    + apply Forall_app. split; [|by apply Forall_singleton].
      apply Forall_forall. intros z Hz.
      apply (placed_before_trans z x y); [|done].
      apply Hlast; [done|]. by apply list_elem_of_singleton.
Qed.

Lemma fold_place_sorted l sorted :
  StronglySorted (placed_before key tag) sorted ->
  StronglySorted (fun x y => (tag x < tag y)%nat) l ->
  (forall x y, x ∈ sorted -> y ∈ l -> (tag x < tag y)%nat) ->
  StronglySorted (placed_before key tag)
    (fold_left (fun s y => place (key_gt key) y s) l sorted).
Proof.
  revert sorted. induction l as [|y l IH]; intros sorted Hs Hl Hlt; [done|].
  simpl. apply StronglySorted_cons in Hl as [Hy Hl].
  apply IH; [|done|].
  - apply place_sorted; [done|]. apply Forall_forall. intros x Hx.
    apply Hlt; [done|]. by left.
  - intros x z Hx Hz. rewrite place_Permutation in Hx.
    apply elem_of_app in Hx as [Hx|Hx].
    + apply Hlt; [done|]. by right.
    + apply list_elem_of_singleton in Hx as ->.
      by apply (proj1 (Forall_forall _ _) Hy).
Qed.

Lemma stable_sort_sorted l :
  StronglySorted (fun x y => (tag x < tag y)%nat) l ->
  StronglySorted (placed_before key tag) (stable_sort (key_gt key) l).
Proof.
  intros Hl. apply fold_place_sorted; [constructor|done|].
  intros x y Hx. by apply elem_of_nil in Hx.
Qed.
End Stability.

Lemma StronglySorted_seq j n : StronglySorted Nat.lt (seq j n).
Proof.
  revert j. induction n as [|n IH]; intros j; simpl; constructor; [done|].
  apply Forall_seq. intros. lia.
Qed.

Lemma StronglySorted_fmap_inv {A B : Type} (f : A -> B) (R : relation B) l :
  StronglySorted R (f <$> l) -> StronglySorted (fun x y => R (f x) (f y)) l.
Proof.
  induction l as [|x l IH]; csimpl; intros H; [constructor|].
  apply StronglySorted_cons in H as [Hx Hl]. constructor; [by apply IH|].
  rewrite Forall_fmap in Hx. exact Hx.
Qed.

Lemma StronglySorted_fmap_elem_of {A B : Type} (f : A -> B)
    (R1 : relation A) (R2 : relation B) l :
  (forall x y, x ∈ l -> y ∈ l -> R1 x y -> R2 (f x) (f y)) ->
  StronglySorted R1 l -> StronglySorted R2 (f <$> l).
Proof.
  induction l as [|x l IH]; csimpl; intros HR H; [constructor|].
  apply StronglySorted_cons in H as [Hx Hl]. constructor.
  - apply IH; [|done]. intros y z Hy Hz. apply HR; by right.
  - apply Forall_fmap, Forall_forall. intros y Hy.
    apply HR; [by left|by right|]. by apply (proj1 (Forall_forall _ _) Hx).
Qed.

(** ** The order of the sort on the indices *)

Section SortOrder.
Variable os : GOOS.
Implicit Types before after : list string.

Lemma sort_order_Permutation before :
  sort_order os before ≡ₚ seq 0 (length before).
Proof.
  unfold sort_order. rewrite stable_sort_Permutation.
  by rewrite snd_zip by (by rewrite length_seq).
Qed.

Lemma elem_of_zip_seq {B : Type} (l : list B) (p : B * nat) :
  p ∈ zip l (seq 0 (length l)) -> l !! p.2 = Some p.1.
Proof.
  intros Hp. apply list_elem_of_lookup in Hp as [i Hi].
  apply lookup_zip_with_Some in Hi as (x & j & -> & Hx & Hj).
  apply lookup_seq in Hj as [-> _]. done.
Qed.

Lemma sort_order_sorted before :
  StronglySorted (visits_before os before) (sort_order os before).
Proof.
  unfold sort_order.
  set (tl := zip before (seq 0 (length before))).
  apply (StronglySorted_fmap_elem_of snd
           (placed_before (fun p => depth os p.1) snd)).
  - intros p q Hp Hq Hpq.
    rewrite stable_sort_Permutation in Hp, Hq.
    apply elem_of_zip_seq in Hp, Hq.
    unfold visits_before.
    rewrite (list_lookup_total_correct _ _ _ Hp).
    rewrite (list_lookup_total_correct _ _ _ Hq). exact Hpq.
  - apply (stable_sort_sorted (fun p => depth os p.1) snd).
    apply StronglySorted_fmap_inv. unfold tl.
    rewrite snd_zip by (by rewrite length_seq).
    apply StronglySorted_seq.
Qed.

Lemma visits_before_strict before i j :
  visits_before os before i j -> visits_before os before j i -> False.
Proof. unfold visits_before. lia. Qed.

Theorem stable_order_unique before (p : list nat) :
  p ≡ₚ seq 0 (length before) ->
  StronglySorted (visits_before os before) p ->
  p = sort_order os before.
Proof.
  intros Hp Hs.
  apply (StronglySorted_unique_strong (visits_before os before));
    [|done|apply sort_order_sorted|by rewrite sort_order_Permutation].
  intros i j _ _ Hij Hji. by destruct (visits_before_strict before i j).
Qed.

Lemma sorted_pairs before after :
  length before = length after ->
  stable_sort (on_fst (deeper os)) (zip before after)
  = (fun i => (before !!! i, after !!! i)) <$> sort_order os before.
Proof.
  intros Hlen.
  set (tl := zip before (zip after (seq 0 (length before)))).
  set (S := stable_sort (on_fst (deeper os)) tl).
  assert (H1 : stable_sort (on_fst (deeper os)) (zip before after)
               = (fun t => (t.1, t.2.1)) <$> S).
  { unfold S. rewrite (stable_sort_fmap (fun t => (t.1, t.2.1))
                         (on_fst (deeper os)) (on_fst (deeper os)))
      by done.
    f_equal. unfold tl. apply list_eq. intros i.
    rewrite list_lookup_fmap, !lookup_zip_with.
    destruct (before !! i) as [b|] eqn:Hb; simpl; [|done].
    destruct (after !! i) as [a|] eqn:Ha; simpl.
    - assert (i < length before)%nat by (by eapply lookup_lt_Some).
      by rewrite lookup_seq_lt.
    - done. }
  assert (H2 : sort_order os before = (fun t => t.2.2) <$> S).
  { unfold sort_order.
    replace ((fun t => t.2.2) <$> S)
      with (((fun t : string * (string * nat) => (t.1, t.2.2)) <$> S).*2)
      by (by rewrite <- list_fmap_compose).
    unfold S.
    rewrite (stable_sort_fmap (fun t => (t.1, t.2.2))
               (on_fst (deeper os)) (on_fst (deeper os))) by done.
    do 2 f_equal. unfold tl. apply list_eq. intros i.
    rewrite list_lookup_fmap, !lookup_zip_with.
    destruct (before !! i) as [b|] eqn:Hb; simpl.
    - assert (i < length after)%nat
        by (rewrite <- Hlen; by eapply lookup_lt_Some).
      destruct (lookup_lt_is_Some_2 after i) as [a Ha]; [done|].
      rewrite Ha. simpl.
      destruct (seq 0 (length before) !! i); done.
    - done. }
  rewrite H1, H2, <- list_fmap_compose.
  apply Forall_fmap_ext_1, Forall_forall. intros t Ht.
  unfold S in Ht. rewrite stable_sort_Permutation in Ht.
  apply list_elem_of_lookup in Ht as [i Hi]. unfold tl in Hi.
  apply lookup_zip_with_Some in Hi as (b & aj & -> & Hb & Haj).
  apply lookup_zip_with_Some in Haj as (a & j & -> & Ha & Hj).
  apply lookup_seq in Hj as [-> _]. simpl.
  by rewrite (list_lookup_total_correct _ _ _ Hb),
    (list_lookup_total_correct _ _ _ Ha).
Qed.
End SortOrder.

(** ** What [parseInstructions] returns and leaves in the store *)

Lemma instructions_of_at before after p :
  instructions_of ((fun i => (before !!! i, after !!! i)) <$> p)
  = instructions_in before after p.
Proof.
  unfold instructions_of, instructions_in.
  by rewrite <- list_fmap_compose.
Qed.

Lemma parseInstructions_result os (h : store string) d e before after :
  d ≠ e -> h !! d = Some before -> h !! e = Some after ->
  length before = length after ->
  parseInstructions os d e h
  = (Ret (instructions_in before after (sort_order os before), None),
     <[e := permuted after (sort_order os before)]>
       (<[d := permuted before (sort_order os before)]> h)).
Proof.
  intros Hne Hd He Hlen.
  rewrite <- (set_pairs_zip h d e before after Hd He Hlen) at 1.
  rewrite parseInstructions_sorted by done.
  rewrite sorted_pairs by done.
  rewrite instructions_of_at. unfold set_pairs, permuted.
  by rewrite <- !list_fmap_compose.
Qed.

Lemma elem_of_sort_order os before i :
  (i < length before)%nat -> i ∈ sort_order os before.
Proof.
  intros Hi. rewrite sort_order_Permutation. apply elem_of_seq. lia.
Qed.

Lemma NoDup_sort_order os before : NoDup (sort_order os before).
Proof. rewrite sort_order_Permutation. apply NoDup_seq. Qed.

(** The place of index [i] in the order of the sort. *)
Lemma sort_order_split os before i :
  (i < length before)%nat ->
  exists pre post,
    sort_order os before = pre ++ i :: post /\ (i ∉ pre) /\ (i ∉ post).
Proof.
  intros Hi.
  destruct (list_elem_of_split _ _ (elem_of_sort_order os before i Hi))
    as (pre & post & Hp).
  exists pre, post. split; [done|].
  pose proof (NoDup_sort_order os before) as Hnd. rewrite Hp in Hnd.
  apply NoDup_app in Hnd as (_ & Hpre & Hpost).
  apply NoDup_cons in Hpost as [Hpost _]. split; [|done].
  intros Hin. apply (Hpre i Hin). by left.
Qed.

Lemma instructions_in_app before after p q :
  instructions_in before after (p ++ q)
  = instructions_in before after p ++ instructions_in before after q.
Proof. unfold instructions_in. by rewrite fmap_app, join_app. Qed.

Lemma instructions_in_cons before after i p :
  instructions_in before after (i :: p)
  = instruction_at before after i ++ instructions_in before after p.
Proof. reflexivity. Qed.

Lemma instructions_in_nil before after p :
  (forall i, i ∈ p -> instruction_at before after i = []) ->
  instructions_in before after p = [].
Proof.
  induction p as [|i p IH]; intros H; [done|].
  rewrite instructions_in_cons, H by (by left). simpl.
  apply IH. intros j Hj. apply H. by right.
Qed.

Local Open Scope N_scope.

(** ** White space and the classification of a pair *)

Lemma space2_lead c1 c2 : space2 c1 c2 = true -> N_of_ascii c1 = 194.
Proof.
  unfold space2. intros H. apply andb_true_iff in H as [H _].
  by apply N.eqb_eq in H.
Qed.

Lemma space3_lead c1 c2 c3 :
  space3 c1 c2 c3 = true ->
  N_of_ascii c1 = 225 \/ N_of_ascii c1 = 226 \/ N_of_ascii c1 = 227.
Proof.
  unfold space3. intros H.
  repeat (apply orb_true_iff in H as [H|H]);
    repeat (apply andb_true_iff in H as [H _]);
    apply N.eqb_eq in H; auto.
Qed.

Lemma space2_not_space1 c1 c2 : space2 c1 c2 = true -> space1 c1 = false.
Proof. intros H. unfold space1. by rewrite (space2_lead _ _ H). Qed.

Lemma space3_not_space1 c1 c2 c3 : space3 c1 c2 c3 = true -> space1 c1 = false.
Proof.
  intros H. unfold space1.
  by destruct (space3_lead _ _ _ H) as [-> | [-> | ->]].
Qed.

Lemma space3_not_space2 c1 c2 c3 c :
  space3 c1 c2 c3 = true -> space2 c1 c = false.
Proof.
  intros H. unfold space2.
  by destruct (space3_lead _ _ _ H) as [-> | [-> | ->]].
Qed.

Lemma trimLeft_WhiteSpace s : WhiteSpace s -> trimLeft s = EmptyString.
Proof.
  induction 1 as [|c s Hc _ IH|c1 c2 s Hc _ IH|c1 c2 c3 s Hc _ IH]; simpl.
  - done.
  - by rewrite Hc.
  - by rewrite (space2_not_space1 _ _ Hc), Hc.
  - by rewrite (space3_not_space1 _ _ _ Hc),
      (space3_not_space2 _ _ _ c2 Hc), Hc.
Qed.

Lemma TrimSpace_WhiteSpace s : WhiteSpace s -> TrimSpace s = EmptyString.
Proof. intros H. unfold TrimSpace. by rewrite trimLeft_WhiteSpace. Qed.

Lemma substring_all s : String.substring 0 (String.length s) s = s.
Proof. induction s as [|c s IH]; simpl; by rewrite ?IH. Qed.

Lemma TrimPrefix_copy rest :
  TrimPrefix ("copy " +:+ rest) cmdCopy = " " +:+ rest.
Proof. unfold TrimPrefix. simpl. by rewrite substring_all. Qed.

Lemma TrimSpace_leading_space rest : TrimSpace (" " +:+ rest) = TrimSpace rest.
Proof. reflexivity. Qed.

Lemma HasPrefix_copy rest :
  HasPrefix ("copy " +:+ rest) (cmdCopy +:+ " ") = true.
Proof. unfold HasPrefix. simpl. by destruct rest. Qed.

Lemma HasPrefix_inv s prefix :
  HasPrefix s prefix = true -> exists rest, s = prefix +:+ rest.
Proof.
  unfold HasPrefix. revert s.
  induction prefix as [|a prefix IH]; intros s H; [by exists s|].
  destruct s as [|b s]; simpl in H; [done|].
  destruct (ascii_dec a b) as [->|]; [|done].
  destruct (IH s H) as [rest ->]. by exists rest.
Qed.

Lemma classify_copy_directive b a rest :
  TrimSpace a = "copy " +:+ rest ->
  classify b a = Some (copy (TrimSpace b) (TrimSpace rest)).
Proof.
  intros Ha. unfold classify. rewrite Ha.
  rewrite TrimPrefix_copy, TrimSpace_leading_space.
  by rewrite HasPrefix_copy.
Qed.

Lemma classify_blank b a :
  WhiteSpace a -> classify b a = Some (remove (TrimSpace b)).
Proof. intros Ha. unfold classify. by rewrite (TrimSpace_WhiteSpace a Ha). Qed.

Lemma classify_unchanged s :
  HasPrefix (TrimSpace s) "copy " = false -> TrimSpace s ≠ EmptyString ->
  classify s s = None.
Proof.
  intros Hcopy Hne. unfold classify.
  change (cmdCopy +:+ " ") with "copy ". rewrite Hcopy.
  destruct (String.eqb_spec (TrimSpace s) "") as [He|_]; [done|].
  by rewrite String.eqb_refl.
Qed.

(** ** Trimming keeps the separators *)

Lemma Count_count_bytes s c :
  Count s c = count_bytes (String.list_ascii_of_string s) c.
Proof. induction s as [|x s IH]; simpl; by rewrite ?IH. Qed.

Lemma count_bytes_app l1 l2 c :
  count_bytes (l1 ++ l2) c = (count_bytes l1 c + count_bytes l2 c)%nat.
Proof.
  induction l1 as [|x l1 IH]; simpl; [done|].
  rewrite IH. by destruct (Ascii.eqb x c).
Qed.

Lemma count_bytes_rev l c : count_bytes (rev l) c = count_bytes l c.
Proof.
  induction l as [|x l IH]; simpl; [done|].
  rewrite count_bytes_app, IH. simpl. destruct (Ascii.eqb x c); lia.
Qed.

Lemma plain_Separator os : plain (Separator os).
Proof. destruct os; split; reflexivity. Qed.

Lemma space2_high c1 c2 :
  space2 c1 c2 = true -> 128 <= N_of_ascii c1 /\ 128 <= N_of_ascii c2.
Proof.
  unfold space2. intros H. apply andb_true_iff in H as [H1 H2].
  apply N.eqb_eq in H1. apply orb_true_iff in H2 as [H2|H2];
    apply N.eqb_eq in H2; lia.
Qed.

Lemma space3_high c1 c2 c3 :
  space3 c1 c2 c3 = true ->
  128 <= N_of_ascii c1 /\ 128 <= N_of_ascii c2 /\ 128 <= N_of_ascii c3.
Proof.
  unfold space3. intros H.
  repeat match type of H with
         | (_ || _)%bool = true => apply orb_true_iff in H as [H|H]
         | (_ && _)%bool = true =>
             let H' := fresh "H" in apply andb_true_iff in H as [H H']
         end;
    repeat match goal with
           | H : (_ =? _) = true |- _ => apply N.eqb_eq in H
           | H : (_ <=? _) = true |- _ => apply N.leb_le in H
           | H : (_ && _)%bool = true |- _ =>
               let H' := fresh "H" in apply andb_true_iff in H as [H H']
           | H : (_ || _)%bool = true |- _ => apply orb_true_iff in H as [H|H]
           end; lia.
Qed.

Lemma eqb_plain_space1 x c :
  plain c -> space1 x = true -> Ascii.eqb x c = false.
Proof.
  intros [_ Hc] Hx. destruct (Ascii.eqb_spec x c) as [->|]; [|done].
  by rewrite Hx in Hc.
Qed.

Lemma eqb_plain_high x c :
  plain c -> 128 <= N_of_ascii x -> Ascii.eqb x c = false.
Proof.
  intros [Hc _] Hx. destruct (Ascii.eqb_spec x c) as [->|]; [lia|done].
Qed.

Lemma trimLeftRev_count c l :
  plain c -> count_bytes (trimLeftRev l) c = count_bytes l c.
Proof.
  intros Hc.
  remember (length l) as n eqn:Hn. revert l Hn.
  induction (lt_wf n) as [n _ IH]. intros l ->.
  destruct l as [|c1 l1]; [done|]. simpl.
  destruct (space1 c1) eqn:H1.
  { rewrite (eqb_plain_space1 c1 c Hc H1).
    apply (IH (length l1)); [simpl; lia|done]. }
  destruct l1 as [|c2 l2]; [done|].
  destruct (space2 c2 c1) eqn:H2.
  { destruct (space2_high _ _ H2) as [Hh2 Hh1].
    simpl. rewrite (eqb_plain_high c1 c Hc Hh1), (eqb_plain_high c2 c Hc Hh2).
    apply (IH (length l2)); [simpl; lia|done]. }
  destruct l2 as [|c3 l3]; [done|].
  destruct (space3 c3 c2 c1) eqn:H3; [|done].
  destruct (space3_high _ _ _ H3) as (Hh3 & Hh2 & Hh1).
  simpl. rewrite (eqb_plain_high c1 c Hc Hh1), (eqb_plain_high c2 c Hc Hh2),
    (eqb_plain_high c3 c Hc Hh3).
  apply (IH (length l3)); [simpl; lia|done].
Qed.

Lemma trimLeft_count c s : plain c -> Count (trimLeft s) c = Count s c.
Proof.
  intros Hc.
  remember (String.length s) as n eqn:Hn. revert s Hn.
  induction (lt_wf n) as [n _ IH]. intros s ->.
  destruct s as [|c1 s1]; [done|]. simpl.
  destruct (space1 c1) eqn:H1.
  { rewrite (eqb_plain_space1 c1 c Hc H1).
    apply (IH (String.length s1)); [simpl; lia|done]. }
  destruct s1 as [|c2 s2]; [done|].
  destruct (space2 c1 c2) eqn:H2.
  { destruct (space2_high _ _ H2) as [Hh1 Hh2].
    simpl. rewrite (eqb_plain_high c1 c Hc Hh1), (eqb_plain_high c2 c Hc Hh2).
    apply (IH (String.length s2)); [simpl; lia|done]. }
  destruct s2 as [|c3 s3]; [done|].
  destruct (space3 c1 c2 c3) eqn:H3; [|done].
  destruct (space3_high _ _ _ H3) as (Hh1 & Hh2 & Hh3).
  simpl. rewrite (eqb_plain_high c1 c Hc Hh1), (eqb_plain_high c2 c Hc Hh2),
    (eqb_plain_high c3 c Hc Hh3).
  apply (IH (String.length s3)); [simpl; lia|done].
Qed.

Lemma trimRight_count c s : plain c -> Count (trimRight s) c = Count s c.
Proof.
  intros Hc. unfold trimRight.
  rewrite Count_count_bytes, String.list_ascii_of_string_of_list_ascii.
  rewrite count_bytes_rev, trimLeftRev_count, count_bytes_rev by done.
  by rewrite <- Count_count_bytes.
Qed.

Lemma depth_TrimSpace os s : depth os (TrimSpace s) = depth os s.
Proof.
  unfold depth, TrimSpace.
  rewrite trimRight_count, trimLeft_count by apply plain_Separator. done.
Qed.

Local Open Scope nat_scope.

(** ** Steps of [run] *)

Section RunFacts.
Variable respond : forall R : Type, list event -> call R -> R.
Variable Dir : string -> string.
Variable Base : string -> string.
Variable os : GOOS.

Lemma perform_called {R : Type} (c : call R) s :
  perform respond c s = (Ret (respond R (trace s) c), called respond c s).
Proof. reflexivity. Qed.

Lemma mem_called {R : Type} (c : call R) s : mem (called respond c s) = mem s.
Proof. reflexivity. Qed.

Lemma run_created before editor dryRun s tmp o s' :
  respond _ (trace s) (CreateTemp "" (Base program)) = inl tmp ->
  run_edited respond Dir os before editor dryRun tmp
    (called respond (CreateTemp "" (Base program)) s) = (o, s') ->
  run respond Dir Base os before editor dryRun s
  = (o, after_deferred respond tmp s').
Proof.
  intros Htmp Hbody. unfold run.
  rewrite (bind_Ret _ _ _ _ _ (perform_called _ s)), Htmp.
  unfold defer. by rewrite Hbody.
Qed.

Lemma run_edited_mismatch before editor dryRun tmp s after s' :
  editPaths respond tmp editor before s = (Ret (inl after), s') ->
  length (elements (mem s') after) ≠ length (elements (mem s') before) ->
  run_edited respond Dir os before editor dryRun tmp s
  = (Ret (Some (Errorf "line count mismatch: before %d, after %d"
                  [arg_int (length (elements (mem s') before));
                   arg_int (length (elements (mem s') after))])), s').
Proof.
  intros Hedit Hlen. unfold run_edited.
  rewrite (bind_Ret _ _ _ _ _ Hedit).
  unfold bind, on_mem, len. simpl.
  destruct (Nat.eqb_spec (length (elements (mem s') after))
              (length (elements (mem s') before))) as [Heq|_]; [done|].
  simpl. by destruct s'.
Qed.

Lemma run_edited_parsed before editor dryRun tmp s after s' instructions h :
  editPaths respond tmp editor before s = (Ret (inl after), s') ->
  length (elements (mem s') after) = length (elements (mem s') before) ->
  parseInstructions os before after (mem s') = (Ret (instructions, None), h) ->
  run_edited respond Dir os before editor dryRun tmp s
  = run_loop respond Dir dryRun instructions {| mem := h; trace := trace s' |}.
Proof.
  intros Hedit Hlen Hparse. unfold run_edited.
  rewrite (bind_Ret _ _ _ _ _ Hedit).
  unfold bind at 1 2, on_mem at 1 2, len. simpl.
  rewrite Hlen, Nat.eqb_refl. simpl.
  unfold bind at 1, on_mem. destruct s' as [h' tr]. simpl in *.
  by rewrite Hparse.
Qed.

Lemma run_loop_fails l1 i l2 s s1 err s2 :
  run_loop respond Dir false l1 s = (Ret None, s1) ->
  Execute respond Dir i (called respond (LogPrintf (instruction_String i)) s1)
  = (Ret (Some err), s2) ->
  run_loop respond Dir false (l1 ++ i :: l2) s
  = (Ret (Some (Errorf "executing: %w" [arg_err err])), s2).
Proof.
  revert s. induction l1 as [|j l1 IH]; intros s Hl1 Hi; simpl in *.
  - injection Hl1 as <-.
    rewrite (bind_Ret _ _ _ _ _ (perform_called _ s)).
    by rewrite (bind_Ret _ _ _ _ _ Hi).
  - rewrite (bind_Ret _ _ _ _ _ (perform_called _ s)) in Hl1.
    rewrite (bind_Ret _ _ _ _ _ (perform_called _ s)).
    unfold bind in Hl1 |- *.
    destruct (Execute respond Dir j _) as [[[e|]|] s']; [done| |done].
    by apply IH.
Qed.
End RunFacts.

(** ** [Execute] and the loop of [run] leave the slices alone *)

Ltac case_response :=
  match goal with
  | |- context [match ?r with inl _ => _ | inr _ => _ end] => destruct r
  | |- context [match ?r with Some _ => _ | None => _ end] => destruct r
  | |- context [if ?b then _ else _] => destruct b
  end.

Section RunMem.
Variable respond : forall R : Type, list event -> call R -> R.
Variable Dir : string -> string.
Variable Base : string -> string.
Variable os : GOOS.

Lemma Execute_mem i s : mem (Execute respond Dir i s).2 = mem s.
Proof.
  destruct i; simpl;
    unfold rename_Execute, remove_Execute, copy_Execute, bind, perform, ret;
    simpl; repeat (case_response; simpl); reflexivity.
Qed.

Lemma run_loop_mem dryRun l s : mem (run_loop respond Dir dryRun l s).2 = mem s.
Proof.
  revert s. induction l as [|i l IH]; intros s; [done|].
  simpl. rewrite (bind_Ret _ _ _ _ _ (perform_called respond _ s)).
  destruct dryRun.
  - by rewrite IH.
  - unfold bind.
    pose proof (Execute_mem i
                  (called respond (LogPrintf (instruction_String i)) s))
      as Hmem.
    destruct (Execute respond Dir i _) as [[[e|]|] s']; simpl in *;
      [done| |done].
    by rewrite IH.
Qed.
End RunMem.

(** ** The path an instruction acts on *)

Lemma source_classify b a x : classify b a = Some x -> source x = TrimSpace b.
Proof.
  unfold classify. intros H.
  repeat match type of H with
         | (if ?c then _ else _) = _ => destruct c
         end; by simplify_eq.
Qed.

Lemma elem_of_instructions_in before after p x :
  x ∈ instructions_in before after p ->
  exists i, i ∈ p /\ classify (before !!! i) (after !!! i) = Some x.
Proof.
  unfold instructions_in. intros Hx.
  apply list_elem_of_join in Hx as (l & Hxl & Hl).
  apply list_elem_of_fmap in Hl as (i & -> & Hi).
  exists i. split; [done|]. unfold instruction_at in Hxl.
  destruct (classify _ _) as [y|]; simpl in Hxl.
  - by apply list_elem_of_singleton in Hxl as ->.
  - by apply elem_of_nil in Hxl.
Qed.

Lemma instructions_in_sorted os before after p :
  StronglySorted (visits_before os before) p ->
  StronglySorted (fun x y => depth os (source y) <= depth os (source x))
    (instructions_in before after p).
Proof.
  induction 1 as [|i p Hp IH Hi]; [constructor|].
  rewrite instructions_in_cons. unfold instruction_at.
  destruct (classify (before !!! i) (after !!! i)) as [x|] eqn:Hx; [|done].
  simpl. constructor; [done|].
  apply Forall_forall. intros y Hy.
  apply elem_of_instructions_in in Hy as (j & Hj & Hy).
  rewrite (source_classify _ _ _ Hx), (source_classify _ _ _ Hy).
  rewrite !depth_TrimSpace.
  pose proof (proj1 (Forall_forall _ _) Hi j Hj) as Hij.
  unfold visits_before in Hij. lia.
Qed.

(** ** The slice [editPaths] returns *)

Lemma foldr_max_ge (l : list positive) k :
  k ∈ l -> (k <= foldr Pos.max 1 l)%positive.
Proof.
  induction l as [|x l IH]; intros Hk; [by apply elem_of_nil in Hk|].
  simpl. apply elem_of_cons in Hk as [->|Hk]; [lia|].
  specialize (IH Hk). lia.
Qed.

Lemma unused_None {T : Type} (h : store T) : h !! unused h = None.
Proof.
  destruct (h !! unused h) as [v|] eqn:Hv; [|done].
  apply elem_of_map_to_list in Hv.
  assert (Hin : unused h ∈ (map_to_list h).*1).
  { apply list_elem_of_fmap. by exists (unused h, v). }
  apply foldr_max_ge in Hin. unfold unused in Hin at 1. lia.
Qed.

Section EditFacts.
Variable respond : forall R : Type, list event -> call R -> R.

Lemma write_each_mem tmp (names : list string) s :
  exists s',
    for_each names (fun name =>
      let* _ := perform respond (FileWriteString tmp (name +:+ newline)) in
      ret tt) s = (Ret tt, s')
    /\ mem s' = mem s.
Proof.
  revert s. induction names as [|name names IH]; intros s; simpl.
  { by exists s. }
  destruct (IH (called respond (FileWriteString tmp (name +:+ newline)) s))
    as (s' & Hs' & Hmem).
  exists s'. split; [|done].
  erewrite bind_Ret; [exact Hs'|].
  by rewrite (bind_Ret _ _ _ _ _ (perform_called respond _ s)).
Qed.

Lemma editPaths_new_slice tmp editor d s e s1 :
  editPaths respond tmp editor d s = (Ret (inl e), s1) ->
  e = unused (mem s) /\ exists lines, mem s1 = <[e := lines]> (mem s).
Proof.
  unfold editPaths. intros H.
  rewrite (bind_Ret _ _ s (elements (mem s) d) s) in H by (by destruct s).
  destruct (write_each_mem tmp (elements (mem s) d) s) as (s' & Hw & Hmem).
  rewrite (bind_Ret _ _ _ _ _ Hw) in H.
  rewrite (bind_Ret _ _ _ _ _ (perform_called respond _ s')) in H.
  destruct (respond _ (trace s') (CmdRun editor [Name tmp])); [done|].
  rewrite (bind_Ret _ _ _ _ _ (perform_called respond _ _)) in H.
  rewrite (bind_Ret _ _ _ _ _ (perform_called respond _ _)) in H.
  unfold bind, new_slice, ret in H. simpl in H.
  injection H as <- <-. simpl. rewrite Hmem. eauto.
Qed.

Lemma editPaths_slices tmp editor d s e s1 before :
  editPaths respond tmp editor d s = (Ret (inl e), s1) ->
  mem s !! d = Some before ->
  d ≠ e /\ mem s1 !! d = Some before /\ is_Some (mem s1 !! e).
Proof.
  intros Hedit Hd.
  destruct (editPaths_new_slice tmp editor d s e s1 Hedit) as (-> & lines & ->).
  assert (Hne : d ≠ unused (mem s)).
  { intros ->. by rewrite unused_None in Hd. }
  split; [done|]. split.
  - by rewrite lookup_insert_ne.
  - rewrite lookup_insert_eq. by eexists.
Qed.
End EditFacts.

(** ** No panic when no slice is shorter than [data] *)

Section NoPanic.
Context {T : Type}.
Implicit Types (h : store T) (m : @multiSortable T).

Lemma same_lengths_refl h : same_lengths h h.
Proof. by intros y. Qed.

Lemma same_lengths_trans h1 h2 h3 :
  same_lengths h1 h2 -> same_lengths h2 h3 -> same_lengths h1 h3.
Proof. intros H12 H23 y. by rewrite H23, H12. Qed.

Lemma covers_same_lengths h h' l n :
  same_lengths h h' -> covers h l n -> covers h' l n.
Proof. intros Hs Hc d Hd. rewrite Hs. by apply Hc. Qed.

Lemma same_lengths_insert h d (l : list T) :
  length l = length (elements h d) -> same_lengths h (<[d := l]> h).
Proof.
  intros Hl y. destruct (decide (d = y)) as [->|Hne].
  - by rewrite elements_insert.
  - by rewrite elements_insert_ne.
Qed.

Lemma swap_elements_lengths h d i j :
  i < length (elements h d) -> j < length (elements h d) ->
  exists h',
    (let* x := index d j in
     let* y := index d i in
     assign d i x ;;; assign d j y) h = (Ret tt, h')
    /\ same_lengths h h'.
Proof.
  intros Hi Hj.
  destruct (lookup_lt_is_Some_2 _ _ Hi) as [y Hy].
  destruct (lookup_lt_is_Some_2 _ _ Hj) as [x Hx].
  rewrite (bind_Ret _ _ h x h) by (by apply index_Ret).
  rewrite (bind_Ret _ _ h y h) by (by apply index_Ret).
  erewrite bind_Ret by (by apply assign_Ret).
  rewrite assign_Ret by (by rewrite elements_insert, length_insert).
  eexists. split; [done|].
  eapply same_lengths_trans; apply same_lengths_insert.
  - by rewrite length_insert.
  - by rewrite !length_insert.
Qed.

Lemma swap_each_lengths h (l : list slice) i j n :
  i < n -> j < n -> covers h l n ->
  exists h',
    for_each l (fun d =>
      let* x := index d j in
      let* y := index d i in
      assign d i x ;;; assign d j y) h = (Ret tt, h')
    /\ same_lengths h h'.
Proof.
  intros Hi Hj. revert h.
  induction l as [|d l IH]; intros h Hc; simpl.
  - exists h. split; [done|apply same_lengths_refl].
  - destruct (swap_elements_lengths h d i j) as (h1 & Hswap & Hs1).
    { pose proof (Hc d ltac:(by left)). lia. }
    { pose proof (Hc d ltac:(by left)). lia. }
    rewrite (bind_Ret _ _ _ _ _ Hswap).
    destruct (IH h1) as (h2 & Hrest & Hs2).
    { apply (covers_same_lengths h); [done|].
      intros y Hy. apply Hc. by right. }
    exists h2. split; [done|]. by eapply same_lengths_trans.
Qed.

Lemma Swap_lengths h m i j n :
  i < n -> j < n -> covers h (data m :: extra m) n ->
  exists h', Swap m i j h = (Ret tt, h') /\ same_lengths h h'.
Proof. apply swap_each_lengths. Qed.

Lemma Less_lengths h m i j n :
  i < n -> j < n -> covers h (data m :: extra m) n ->
  exists b, Less m i j h = (Ret b, h).
Proof.
  intros Hi Hj Hc. pose proof (Hc (data m) ltac:(by left)).
  destruct (lookup_lt_is_Some_2 (elements h (data m)) i) as [x Hx]; [lia|].
  destruct (lookup_lt_is_Some_2 (elements h (data m)) j) as [y Hy]; [lia|].
  eexists. by apply Less_Ret.
Qed.

Lemma insertionSort_inner_lengths h m a j n :
  j < n -> covers h (data m :: extra m) n ->
  exists h', insertionSort_inner m a j h = (Ret tt, h') /\ same_lengths h h'.
Proof.
  revert h. induction j as [|j IH]; intros h Hj Hc; simpl.
  { exists h. split; [done|apply same_lengths_refl]. }
  destruct (a <? S j); [|exists h; split; [done|apply same_lengths_refl]].
  destruct (Less_lengths h m (S j) j n) as [b Hb]; [lia|lia|done|].
  rewrite (bind_Ret _ _ _ _ _ Hb).
  destruct b; [|exists h; split; [done|apply same_lengths_refl]].
  destruct (Swap_lengths h m (S j) j n) as (h1 & Hswap & Hs1); [lia|lia|done|].
  rewrite (bind_Ret _ _ _ _ _ Hswap).
  destruct (IH h1) as (h2 & Hrest & Hs2);
    [lia|by apply (covers_same_lengths h)|].
  exists h2. split; [done|]. by eapply same_lengths_trans.
Qed.

Lemma for_each_lengths h (body : nat -> M (store T) unit) (l : list nat)
    (P : store T -> Prop) :
  (forall h1 h2, same_lengths h1 h2 -> P h1 -> P h2) ->
  (forall i h1, i ∈ l -> P h1 ->
     exists h2, body i h1 = (Ret tt, h2) /\ same_lengths h1 h2) ->
  P h ->
  exists h', for_each l body h = (Ret tt, h') /\ same_lengths h h'.
Proof.
  intros HP. revert h. induction l as [|i l IH]; intros h Hbody Hh; simpl.
  { exists h. split; [done|apply same_lengths_refl]. }
  destruct (Hbody i h) as (h1 & Hi & Hs1); [by left|done|].
  rewrite (bind_Ret _ _ _ _ _ Hi).
  destruct (IH h1) as (h2 & Hrest & Hs2).
  - intros j h3 Hj. apply Hbody. by right.
  - by apply (HP h).
  - exists h2. split; [done|]. by eapply same_lengths_trans.
Qed.

Lemma Stable_lengths h m :
  covers h (extra m) (length (elements h (data m))) ->
  exists h', Stable m h = (Ret tt, h') /\ same_lengths h h'.
Proof.
  intros Hc. unfold Stable. erewrite bind_Ret by reflexivity.
  set (n := length (elements h (data m))).
  apply (for_each_lengths h _ _ (fun h1 => covers h1 (data m :: extra m) n)).
  - intros h1 h2 Hs. by apply covers_same_lengths.
  - intros i h1 Hi Hc1. apply (insertionSort_inner_lengths h1 m 0 i n); [|done].
    apply elem_of_seq in Hi. lia.
  - intros d Hd. apply elem_of_cons in Hd as [->|Hd]; [done|by apply Hc].
Qed.
End NoPanic.

Lemma parse_loop_lengths (h : store string) d e (l : list nat) acc :
  (forall i, i ∈ l ->
     i < length (elements h d) /\ i < length (elements h e)) ->
  exists instructions,
    for_fold l acc
      (fun instructions i =>
         let* b := index d i in
         let* a := index e i in
         ret (instructions ++ option_list (classify b a))) h
    = (Ret instructions, h).
Proof.
  revert acc. induction l as [|i l IH]; intros acc Hl; simpl.
  { by exists acc. }
  destruct (Hl i) as [Hd He]; [by left|].
  destruct (lookup_lt_is_Some_2 _ _ Hd) as [b Hb].
  destruct (lookup_lt_is_Some_2 _ _ He) as [a Ha].
  erewrite bind_Ret; last first.
  { rewrite (bind_Ret _ _ h b h) by (by apply index_Ret).
    rewrite (bind_Ret _ _ h a h) by (by apply index_Ret). reflexivity. }
  apply IH. intros j Hj. apply Hl. by right.
Qed.

Lemma parseInstructions_total os (h : store string) d e :
  length (elements h d) <= length (elements h e) ->
  exists instructions h',
    parseInstructions os d e h = (Ret (instructions, None), h').
Proof.
  intros Hlen. unfold parseInstructions, multiSortStable.
  destruct (Stable_lengths h {| data := d; extra := [e]; less := deeper os |})
    as (h1 & Hsort & Hs1).
  { intros y Hy. apply list_elem_of_singleton in Hy as ->. done. }
  rewrite (bind_Ret _ _ _ _ _ Hsort).
  erewrite bind_Ret by reflexivity.
  destruct (parse_loop_lengths h1 d e (seq 0 (length (elements h1 d))) [])
    as [instructions Hloop].
  { intros i Hi. apply elem_of_seq in Hi. rewrite !Hs1 in *. lia. }
  rewrite (bind_Ret _ _ _ _ _ Hloop). by eexists _, _.
Qed.

(** * The claims *)

Example classify_copy :
  classify "a/x" "  copy   a/y " = Some (copy "a/x" "a/y").
Proof. reflexivity. Qed.

(** ** The claims on [parseInstructions] *)

(** C1: for equal-length [before] and [after], the instructions returned
    are those of the pairs taken in an order [p] of the indices in which an
    index stands before another only if its before path is deeper (has more
    separators, counted in the untrimmed string), or as deep and earlier in
    the input; so depth never increases along the list of instructions, and
    pairs of equal depth keep their input order. *)
Theorem parseInstructions_deepest_first
    os (h : store string) d e before after :
  d ≠ e -> h !! d = Some before -> h !! e = Some after ->
  length before = length after ->
  exists p,
    (parseInstructions os d e h).1 = Ret (instructions_in before after p, None)
    /\ p ≡ₚ seq 0 (length before)
    /\ StronglySorted (visits_before os before) p
    /\ StronglySorted
         (fun x y => depth os (source y) <= depth os (source x))
         (instructions_in before after p).
Proof.
  intros Hne Hd He Hlen. exists (sort_order os before).
  rewrite (parseInstructions_result os h d e before after) by done.
  split; [done|]. split; [apply sort_order_Permutation|].
  split; [apply sort_order_sorted|].
  apply instructions_in_sorted, sort_order_sorted.
Qed.

Lemma parseInstructions_deepest_first_witness :
  exists p,
    (parseInstructions unix 1 2
       (two_slices ["a/b"; "c"; "a/b/c"; "d"] ["a/x"; ""; "a/b/c"; "e"])).1
    = Ret (instructions_in ["a/b"; "c"; "a/b/c"; "d"]
             ["a/x"; ""; "a/b/c"; "e"] p, None)
    /\ p ≡ₚ seq 0 4
    /\ StronglySorted (visits_before unix ["a/b"; "c"; "a/b/c"; "d"]) p
    /\ StronglySorted
         (fun x y => depth unix (source y) <= depth unix (source x))
         (instructions_in ["a/b"; "c"; "a/b/c"; "d"]
            ["a/x"; ""; "a/b/c"; "e"] p).
Proof.
  apply (parseInstructions_deepest_first unix
           (two_slices ["a/b"; "c"; "a/b/c"; "d"] ["a/x"; ""; "a/b/c"; "e"])
           1 2 ["a/b"; "c"; "a/b/c"; "d"] ["a/x"; ""; "a/b/c"; "e"]);
    [done|reflexivity|reflexivity|reflexivity].
Defined.

(** The order of the sort on that input: the deepest path first, then the
    path with one separator, then the two others as they came. *)
Example sort_order_example :
  sort_order unix ["a/b"; "c"; "a/b/c"; "d"] = [2; 0; 1; 3]
  /\ instructions_in ["a/b"; "c"; "a/b/c"; "d"] ["a/x"; ""; "a/b/c"; "e"]
       [2; 0; 1; 3]
     = [rename "a/b" "a/x"; remove "c"; rename "d" "e"].
Proof. split; reflexivity. Qed.

(** C2: on a platform whose separator is the slash, [before = ["a", "a/x"]]
    and [after = ["", "copy a/y"]] give exactly the copy of [a/x] to [a/y]
    and then the removal of [a], the sort having put the pair of [a/x]
    first. *)
Theorem parseInstructions_scenario_copy_remove (h : store string) d e :
  d ≠ e -> h !! d = Some ["a"; "a/x"] -> h !! e = Some [""; "copy a/y"] ->
  (parseInstructions unix d e h).1
  = Ret ([copy "a/x" "a/y"; remove "a"], None)
  /\ (parseInstructions unix d e h).2 !! d = Some ["a/x"; "a"]
  /\ (parseInstructions unix d e h).2 !! e = Some ["copy a/y"; ""].
Proof.
  intros Hne Hd He.
  rewrite (parseInstructions_result unix h d e ["a"; "a/x"] [""; "copy a/y"])
    by done.
  split; [done|]. simpl. split.
  - rewrite lookup_insert_ne by done. by rewrite lookup_insert_eq.
  - by rewrite lookup_insert_eq.
Qed.

Lemma parseInstructions_scenario_copy_remove_witness :
  (parseInstructions unix 1 2 (two_slices ["a"; "a/x"] [""; "copy a/y"])).1
  = Ret ([copy "a/x" "a/y"; remove "a"], None)
  /\ (parseInstructions unix 1 2 (two_slices ["a"; "a/x"] [""; "copy a/y"])).2
     !! 1%positive = Some ["a/x"; "a"]
  /\ (parseInstructions unix 1 2 (two_slices ["a"; "a/x"] [""; "copy a/y"])).2
     !! 2%positive = Some ["copy a/y"; ""].
Proof.
  apply (parseInstructions_scenario_copy_remove
           (two_slices ["a"; "a/x"] [""; "copy a/y"]) 1 2);
    [done|reflexivity|reflexivity].
Defined.

(** With the backslash as separator neither path has depth, and the pairs
    keep their order. *)
Example parseInstructions_scenario_windows :
  (parseInstructions windows 1 2 (two_slices ["a"; "a/x"] [""; "copy a/y"])).1
  = Ret ([remove "a"; copy "a/x" "a/y"], None).
Proof. reflexivity. Qed.

(** C3: a pair whose trimmed after line starts with [copy ] gives, at the
    place of its index in the order of the sort, a copy from the trimmed
    before line to what follows [copy ] in the trimmed after line, trimmed;
    this whatever the before line is, the target included. *)
Theorem parseInstructions_copy_directive
    os (h : store string) d e before after i b a :
  d ≠ e -> h !! d = Some before -> h !! e = Some after ->
  length before = length after ->
  before !! i = Some b -> after !! i = Some a ->
  HasPrefix (TrimSpace a) "copy " = true ->
  exists rest pre post,
    TrimSpace a = "copy " +:+ rest
    /\ sort_order os before = pre ++ i :: post /\ (i ∉ pre) /\ (i ∉ post)
    /\ (parseInstructions os d e h).1
       = Ret (instructions_in before after pre
                ++ copy (TrimSpace b) (TrimSpace rest)
                   :: instructions_in before after post, None).
Proof.
  intros Hne Hd He Hlen Hb Ha Hprefix.
  destruct (HasPrefix_inv _ _ Hprefix) as [rest Hcopy].
  destruct (sort_order_split os before i) as (pre & post & Hp & Hpre & Hpost).
  { by eapply lookup_lt_Some. }
  exists rest, pre, post. repeat split; [done..|].
  rewrite (parseInstructions_result os h d e before after) by done.
  rewrite Hp, instructions_in_app, instructions_in_cons. simpl.
  unfold instruction_at at 1.
  rewrite (list_lookup_total_correct _ _ _ Hb),
    (list_lookup_total_correct _ _ _ Ha).
  by rewrite (classify_copy_directive b a rest Hcopy).
Qed.

Lemma parseInstructions_copy_directive_witness :
  exists rest pre post,
    TrimSpace " copy  x " = "copy " +:+ rest
    /\ sort_order unix ["x"; "a/b"] = pre ++ 0 :: post
    /\ (0 ∉ pre) /\ (0 ∉ post)
    /\ (parseInstructions unix 1 2
          (two_slices ["x"; "a/b"] [" copy  x "; "a/c"])).1
       = Ret (instructions_in ["x"; "a/b"] [" copy  x "; "a/c"] pre
                ++ copy (TrimSpace "x") (TrimSpace rest)
                   :: instructions_in ["x"; "a/b"] [" copy  x "; "a/c"] post,
              None).
Proof.
  apply (parseInstructions_copy_directive unix
           (two_slices ["x"; "a/b"] [" copy  x "; "a/c"]) 1 2
           ["x"; "a/b"] [" copy  x "; "a/c"] 0 "x" " copy  x ");
    [done|reflexivity..].
Defined.

(** The copy wins over the other cases: the line names the before path as
    target, or the path itself starts with [copy ]. *)
Example classify_copy_onto_itself :
  classify "x" "copy x" = Some (copy "x" "x")
  /\ classify "copy x" "copy x" = Some (copy "copy x" "x").
Proof. split; reflexivity. Qed.

(** C4, as the code has it: when no line was changed, no trimmed line is
    empty and no trimmed line starts with [copy ], no instruction is
    returned. *)
Theorem parseInstructions_unchanged os (h : store string) d e before :
  d ≠ e -> h !! d = Some before -> h !! e = Some before ->
  Forall (fun s => HasPrefix (TrimSpace s) "copy " = false
                   /\ TrimSpace s ≠ EmptyString) before ->
  (parseInstructions os d e h).1 = Ret ([], None).
Proof.
  intros Hne Hd He Hplain.
  rewrite (parseInstructions_result os h d e before before) by done.
  simpl. do 2 f_equal. apply instructions_in_nil. intros i Hi.
  rewrite sort_order_Permutation in Hi. apply elem_of_seq in Hi as [_ Hi].
  destruct (lookup_lt_is_Some_2 before i) as [s Hs]; [lia|].
  unfold instruction_at. rewrite (list_lookup_total_correct _ _ _ Hs).
  destruct (proj1 (Forall_forall _ _) Hplain s) as [Hcopy Hempty].
  { apply list_elem_of_lookup. by exists i. }
  by rewrite classify_unchanged.
Qed.

Lemma parseInstructions_unchanged_witness :
  (parseInstructions unix 1 2
     (two_slices ["dir/old.txt"; "dir"] ["dir/old.txt"; "dir"])).1
  = Ret ([], None).
Proof.
  apply (parseInstructions_unchanged unix
           (two_slices ["dir/old.txt"; "dir"] ["dir/old.txt"; "dir"]) 1 2
           ["dir/old.txt"; "dir"]); [done|reflexivity|reflexivity|].
  repeat constructor; discriminate.
Defined.

(** C4 as stated fails: an unchanged line that starts with [copy ] is
    copied, and an unchanged empty line is removed. *)
Lemma parseInstructions_unchanged_counterexample :
  ~ (forall os (h : store string) d e before after,
       d ≠ e -> h !! d = Some before -> h !! e = Some after ->
       length before = length after ->
       (forall i, after !! i = before !! i) ->
       (parseInstructions os d e h).1 = Ret ([], None)).
Proof.
  intros H.
  specialize (H unix (two_slices ["copy a"; ""] ["copy a"; ""]) 1%positive
                2%positive ["copy a"; ""] ["copy a"; ""]).
  discriminate H; done.
Qed.

Example parseInstructions_unchanged_copy :
  (parseInstructions unix 1 2 (two_slices ["copy a"; ""] ["copy a"; ""])).1
  = Ret ([copy "copy a" "a"; remove ""], None).
Proof. reflexivity. Qed.

(** C5: a pair whose after line is empty or white space only gives, at the
    place of its index in the order of the sort, the removal of the trimmed
    before line, and nothing else. *)
Theorem parseInstructions_blank_line
    os (h : store string) d e before after i b a :
  d ≠ e -> h !! d = Some before -> h !! e = Some after ->
  length before = length after ->
  before !! i = Some b -> after !! i = Some a ->
  WhiteSpace a ->
  instruction_at before after i = [remove (TrimSpace b)]
  /\ exists pre post,
      sort_order os before = pre ++ i :: post /\ (i ∉ pre) /\ (i ∉ post)
      /\ (parseInstructions os d e h).1
         = Ret (instructions_in before after pre
                  ++ remove (TrimSpace b)
                     :: instructions_in before after post, None).
Proof.
  intros Hne Hd He Hlen Hb Ha Hblank.
  assert (Hat : instruction_at before after i = [remove (TrimSpace b)]).
  { unfold instruction_at.
    rewrite (list_lookup_total_correct _ _ _ Hb),
      (list_lookup_total_correct _ _ _ Ha).
    by rewrite (classify_blank b a Hblank). }
  split; [done|].
  destruct (sort_order_split os before i) as (pre & post & Hp & Hpre & Hpost).
  { by eapply lookup_lt_Some. }
  exists pre, post. repeat split; [done..|].
  rewrite (parseInstructions_result os h d e before after) by done.
  by rewrite Hp, instructions_in_app, instructions_in_cons, Hat.
Qed.

Lemma WhiteSpace_blank : WhiteSpace blank.
Proof. repeat constructor. Defined.

Lemma parseInstructions_blank_line_witness :
  instruction_at ["a"; "b/c"] [blank; "b/c"] 0 = [remove "a"]
  /\ exists pre post,
      sort_order unix ["a"; "b/c"] = pre ++ 0 :: post
      /\ (0 ∉ pre) /\ (0 ∉ post)
      /\ (parseInstructions unix 1 2 (two_slices ["a"; "b/c"] [blank; "b/c"])).1
         = Ret (instructions_in ["a"; "b/c"] [blank; "b/c"] pre
                  ++ remove (TrimSpace "a")
                     :: instructions_in ["a"; "b/c"] [blank; "b/c"] post, None).
Proof.
  apply (parseInstructions_blank_line unix
           (two_slices ["a"; "b/c"] [blank; "b/c"])
           1 2 ["a"; "b/c"] [blank; "b/c"] 0 "a" blank);
    [done|reflexivity..|apply WhiteSpace_blank].
Defined.

(** ** The claims on [run] and [Execute] *)

(** C6: when the editor session returns a sequence whose length differs
    from that of [before], [run] returns the line count error and the state
    of the session followed by the two deferred calls only, so no
    instruction was derived, logged or executed; and for sequences of equal
    length [parseInstructions] returns instructions and a nil error. *)
Theorem run_length_mismatch :
  (forall (respond : forall R : Type, list event -> call R -> R) Dir Base os
          before editor dryRun s tmp after s1,
     respond _ (trace s) (CreateTemp "" (Base program)) = inl tmp ->
     editPaths respond tmp editor before
       (called respond (CreateTemp "" (Base program)) s)
     = (Ret (inl after), s1) ->
     length (elements (mem s1) after) ≠ length (elements (mem s1) before) ->
     run respond Dir Base os before editor dryRun s
     = (Ret (Some (Errorf "line count mismatch: before %d, after %d"
                     [arg_int (length (elements (mem s1) before));
                      arg_int (length (elements (mem s1) after))])),
        after_deferred respond tmp s1))
  /\ (forall os (h : store string) d e,
        length (elements h d) = length (elements h e) ->
        exists instructions h',
          parseInstructions os d e h = (Ret (instructions, None), h')).
Proof.
  split.
  - intros respond Dir Base os before editor dryRun s tmp after s1
      Htmp Hedit Hlen.
    apply run_created; [done|]. by apply run_edited_mismatch.
  - intros os h d e Hlen. apply parseInstructions_total. lia.
Qed.

Lemma run_length_mismatch_witness :
  ((run (all_succeed ["a"; "b"]) example_Dir example_Base unix 1 "vi" false
      (start ["a"; "b"; "c"])).1
   = Ret (Some (Errorf "line count mismatch: before %d, after %d"
                  [arg_int 3; arg_int 2]))
   /\ trace (run (all_succeed ["a"; "b"]) example_Dir example_Base unix 1 "vi"
               false (start ["a"; "b"; "c"])).2
      = [Event (CreateTemp "" "vi-paths") (inl scratch);
         Event (FileWriteString scratch ("a" +:+ newline)) (2, None);
         Event (FileWriteString scratch ("b" +:+ newline)) (2, None);
         Event (FileWriteString scratch ("c" +:+ newline)) (2, None);
         Event (CmdRun "vi" [Name scratch]) None;
         Event (FileSeek scratch 0 io_SeekStart) (0%Z, None);
         Event (ScanLines scratch) (["a"; "b"], None);
         Event (FileClose scratch) None;
         Event (OsRemove (Name scratch)) None])
  /\ exists instructions h',
      parseInstructions unix 1 2 (two_slices ["a"; "b/c"] ["x"; ""])
      = (Ret (instructions, None), h').
Proof.
  destruct run_length_mismatch as [Hrun Hparse]. split.
  - set (env := all_succeed ["a"; "b"]).
    pose (s1 := (editPaths env scratch "vi" 1
                   (called env (CreateTemp "" "vi-paths")
                      (start ["a"; "b"; "c"]))).2).
    rewrite (Hrun env example_Dir example_Base unix 1%positive "vi" false
               (start ["a"; "b"; "c"]) scratch 2%positive s1);
      [|vm_compute; reflexivity|vm_compute; reflexivity|vm_compute; lia].
    vm_compute. split; reflexivity.
  - apply (Hparse unix (two_slices ["a"; "b/c"] ["x"; ""])
             1%positive 2%positive).
    reflexivity.
Defined.

(** C7: when the instructions before the [k]-th one were executed without
    error and executing the [k]-th one fails, [run] returns that error; the
    state it leaves is the one the failed [Execute] left, followed by the
    two deferred calls only: no later instruction is logged or executed, and
    no call undoes an earlier one. *)
Theorem run_stops_at_first_failure
    (respond : forall R : Type, list event -> call R -> R) Dir Base os
    before editor s tmp after s1 l1 i l2 h2 s3 err s4 :
  respond _ (trace s) (CreateTemp "" (Base program)) = inl tmp ->
  editPaths respond tmp editor before
    (called respond (CreateTemp "" (Base program)) s) = (Ret (inl after), s1) ->
  length (elements (mem s1) after) = length (elements (mem s1) before) ->
  parseInstructions os before after (mem s1)
  = (Ret (l1 ++ i :: l2, None), h2) ->
  run_loop respond Dir false l1 {| mem := h2; trace := trace s1 |}
  = (Ret None, s3) ->
  Execute respond Dir i (called respond (LogPrintf (instruction_String i)) s3)
  = (Ret (Some err), s4) ->
  run respond Dir Base os before editor false s
  = (Ret (Some (Errorf "executing: %w" [arg_err err])),
     after_deferred respond tmp s4).
Proof.
  intros Htmp Hedit Hlen Hparse Hl1 Hi.
  apply run_created; [done|].
  rewrite (run_edited_parsed respond Dir os before editor false tmp _ after s1
             (l1 ++ i :: l2) h2) by done.
  by apply (run_loop_fails respond Dir l1 i l2 _ s3).
Qed.

Lemma run_stops_at_first_failure_witness :
  (run (remove_fails "a" [""; ""; ""]) example_Dir example_Base unix 1 "vi"
     false (start ["a"; "b/c"; "d"])).1
  = Ret (Some (Errorf "executing: %w"
                 [arg_err (Errorf "exe remove all: %w"
                             [arg_err (os_error "permission denied")])]))
  /\ trace (run (remove_fails "a" [""; ""; ""]) example_Dir example_Base unix 1
              "vi" false (start ["a"; "b/c"; "d"])).2
     = [Event (CreateTemp "" "vi-paths") (inl scratch);
        Event (FileWriteString scratch ("a" +:+ newline)) (2, None);
        Event (FileWriteString scratch ("b/c" +:+ newline)) (4, None);
        Event (FileWriteString scratch ("d" +:+ newline)) (2, None);
        Event (CmdRun "vi" [Name scratch]) None;
        Event (FileSeek scratch 0 io_SeekStart) (0%Z, None);
        Event (ScanLines scratch) ([""; ""; ""], None);
        Event (LogPrintf "remove b/c") tt;
        Event (RemoveAll "b/c") None;
        Event (LogPrintf "remove a") tt;
        Event (RemoveAll "a") (Some (os_error "permission denied"));
        Event (FileClose scratch) None;
        Event (OsRemove (Name scratch)) None].
Proof.
  set (env := remove_fails "a" [""; ""; ""]).
  pose (s1 := (editPaths env scratch "vi" 1
                 (called env (CreateTemp "" "vi-paths")
                    (start ["a"; "b/c"; "d"]))).2).
  pose (h2 := (parseInstructions unix 1 2 (mem s1)).2).
  pose (s3 := (run_loop env example_Dir false [remove "b/c"]
                 {| mem := h2; trace := trace s1 |}).2).
  pose (s4 := (Execute env example_Dir (remove "a")
                 (called env (LogPrintf "remove a") s3)).2).
  rewrite (run_stops_at_first_failure env example_Dir example_Base unix 1 "vi"
             (start ["a"; "b/c"; "d"]) scratch 2 s1
             [remove "b/c"] (remove "a") [remove "d"] h2 s3
             (Errorf "exe remove all: %w"
                [arg_err (os_error "permission denied")])
             s4);
    [|vm_compute; reflexivity..].
  vm_compute. split; reflexivity.
Defined.

(** C8, as the code has it: when [os.Stat(from)] reports a directory,
    [Execute] calls [os.MkdirAll(to, mode of from)] and nothing more, and
    returns nil when that call succeeds and its error, wrapped, otherwise;
    when it reports anything that is not a directory, a regular file or
    not, the content of [from] is read and written to [to] with the mode of
    [from]. *)
Theorem copy_Execute_by_kind
    (respond : forall R : Type, list event -> call R -> R) Dir from to s stat :
  respond _ (trace s) (Stat from) = inl stat ->
  let s1 := called respond (Stat from) s in
  (IsDir stat = true ->
   copy_Execute respond Dir from to s
   = (Ret match respond _ (trace s1) (MkdirAll to (Mode stat)) with
          | Some err => Some (Errorf "exe mkdirall: %w" [arg_err err])
          | None => None
          end,
      called respond (MkdirAll to (Mode stat)) s1))
  /\ (IsDir stat = false ->
      forall parentStat input,
        respond _ (trace s1) (Stat (Dir from)) = inl parentStat ->
        let s2 := called respond (Stat (Dir from)) s1 in
        respond _ (trace s2) (MkdirAll (Dir to) (Mode parentStat)) = None ->
        let s3 := called respond (MkdirAll (Dir to) (Mode parentStat)) s2 in
        respond _ (trace s3) (ReadFile from) = inl input ->
        let s4 := called respond (ReadFile from) s3 in
        copy_Execute respond Dir from to s
        = (Ret match respond _ (trace s4) (WriteFile to input (Mode stat)) with
               | Some err => Some (Errorf "exe write: %w" [arg_err err])
               | None => None
               end,
           called respond (WriteFile to input (Mode stat)) s4)).
Proof.
  intros Hstat s1. split.
  - intros Hdir. unfold copy_Execute.
    rewrite (bind_Ret _ _ _ _ _ (perform_called respond _ s)), Hstat, Hdir.
    rewrite (bind_Ret _ _ _ _ _ (perform_called respond _ s1)).
    by destruct (respond _ (trace s1) (MkdirAll to (Mode stat))).
  - intros Hfile parentStat input Hparent s2 Hmkdir s3 Hread s4.
    unfold copy_Execute.
    rewrite (bind_Ret _ _ _ _ _ (perform_called respond _ s)), Hstat, Hfile.
    rewrite (bind_Ret _ _ _ _ _ (perform_called respond _ s1)), Hparent.
    rewrite (bind_Ret _ _ _ _ _ (perform_called respond _ s2)), Hmkdir.
    rewrite (bind_Ret _ _ _ _ _ (perform_called respond _ s3)), Hread.
    rewrite (bind_Ret _ _ _ _ _ (perform_called respond _ s4)).
    by destruct (respond _ (trace s4) (WriteFile to input (Mode stat))).
Qed.

Lemma copy_Execute_by_kind_witness :
  copy_Execute (with_mode directory_mode []) example_Dir "music" "backup"
    (start [])
  = (Ret None,
     called (with_mode directory_mode []) (MkdirAll "backup" directory_mode)
       (called (with_mode directory_mode []) (Stat "music") (start []))).
Proof.
  apply (copy_Execute_by_kind (with_mode directory_mode []) example_Dir
           "music" "backup" (start []) {| Mode := directory_mode |});
    reflexivity.
Defined.

(** C8 as stated fails: a character device is neither a directory nor a
    regular file, and its content is read and written. *)
Lemma copy_Execute_regular_only_counterexample :
  IsDir {| Mode := device_mode |} = false
  /\ IsRegular {| Mode := device_mode |} = false
  /\ (copy_Execute (with_mode device_mode []) example_Dir "/dev/null" "empty"
        (start [])).1 = Ret None
  /\ trace (copy_Execute (with_mode device_mode []) example_Dir "/dev/null"
              "empty" (start [])).2
     = [Event (Stat "/dev/null") (inl {| Mode := device_mode |});
        Event (Stat "/dev") (inl {| Mode := device_mode |});
        Event (MkdirAll "." device_mode) None;
        Event (ReadFile "/dev/null") (inl "");
        Event (WriteFile "empty" "" device_mode) None].
Proof. vm_compute. repeat split; reflexivity. Qed.

(** C9 at a failing input: no write to the scratch file succeeds, the
    editor leaves one line, and [run] renames and returns nil. *)
Theorem run_drops_write_error :
  (run (write_fails ["b"]) example_Dir example_Base unix 1 "vi" false
     (start ["a"])).1 = Ret None
  /\ trace (run (write_fails ["b"]) example_Dir example_Base unix 1 "vi" false
              (start ["a"])).2
     = [Event (CreateTemp "" "vi-paths") (inl scratch);
        Event (FileWriteString scratch ("a" +:+ newline))
          (0, Some (os_error "no space left on device"));
        Event (CmdRun "vi" [Name scratch]) None;
        Event (FileSeek scratch 0 io_SeekStart) (0%Z, None);
        Event (ScanLines scratch) (["b"], None);
        Event (LogPrintf ("rename a" +:+ newline +:+ "    -> b")) tt;
        Event (MkdirAll "." 493) None;
        Event (OsRename "a" "b") None;
        Event (FileClose scratch) None;
        Event (OsRemove (Name scratch)) None].
Proof. vm_compute. split; reflexivity. Qed.

(** The same for the scanner: it stops on an error after two lines, and
    [run] renames and returns nil. *)
Example run_drops_scan_error :
  (run (scan_fails ["x"; "y"]) example_Dir example_Base unix 1 "vi" true
     (start ["a"; "b"])).1 = Ret None.
Proof. vm_compute. reflexivity. Qed.

(** C10: [parseInstructions] leaves in the array of [before] and in the
    array of [after] their elements in the order of the sort, the same
    order [p] for both, and every other array of the store as it was; [run]
    leaves the slices so whether or not it is a dry run. *)
Theorem parseInstructions_permutes_in_place :
  (forall os (h : store string) d e before after,
     d ≠ e -> h !! d = Some before -> h !! e = Some after ->
     length before = length after ->
     exists p,
       p ≡ₚ seq 0 (length before)
       /\ StronglySorted (visits_before os before) p
       /\ (parseInstructions os d e h).2
          = <[e := permuted after p]> (<[d := permuted before p]> h))
  /\ (forall (respond : forall R : Type, list event -> call R -> R) Dir Base os
             d editor dryRun s tmp e s1 before after,
        respond _ (trace s) (CreateTemp "" (Base program)) = inl tmp ->
        editPaths respond tmp editor d
          (called respond (CreateTemp "" (Base program)) s)
        = (Ret (inl e), s1) ->
        mem s !! d = Some before -> mem s1 !! e = Some after ->
        length before = length after ->
        mem (run respond Dir Base os d editor dryRun s).2
        = <[e := permuted after (sort_order os before)]>
            (<[d := permuted before (sort_order os before)]> (mem s1))).
Proof.
  split.
  - intros os h d e before after Hne Hd He Hlen.
    exists (sort_order os before).
    split; [apply sort_order_Permutation|]. split; [apply sort_order_sorted|].
    by rewrite (parseInstructions_result os h d e before after).
  - intros respond Dir Base os d editor dryRun s tmp e s1 before after
      Htmp Hedit Hd0 He Hlen.
    destruct (editPaths_slices respond tmp editor d _ e s1 before Hedit Hd0)
      as (Hne & Hd & _).
    pose proof (parseInstructions_result os (mem s1) d e before after
                  Hne Hd He Hlen) as Hparse.
    set (h2 := <[e := _]> _) in *.
    pose proof (run_loop_mem respond Dir dryRun
                  (instructions_in before after (sort_order os before))
                  {| mem := h2; trace := trace s1 |}) as Hmem.
    destruct (run_loop respond Dir dryRun _ _) as [o s2] eqn:Hloop.
    rewrite (run_created respond Dir Base os d editor dryRun s tmp o s2 Htmp);
      [done|].
    rewrite <- Hloop. apply (run_edited_parsed respond Dir os d editor dryRun
                               tmp _ e s1 _ h2 Hedit); [|done].
    unfold elements. by rewrite Hd, He.
Qed.

Lemma parseInstructions_permutes_in_place_witness :
  (exists p,
     p ≡ₚ seq 0 2
     /\ StronglySorted (visits_before unix ["a"; "a/x"]) p
     /\ (parseInstructions unix 1 2
           (two_slices ["a"; "a/x"] [""; "copy a/y"])).2
        = <[2%positive := permuted [""; "copy a/y"] p]>
            (<[1%positive := permuted ["a"; "a/x"] p]>
               (two_slices ["a"; "a/x"] [""; "copy a/y"])))
  /\ elements
       (mem (run (all_succeed [""; "copy a/y"]) example_Dir example_Base unix 1
               "vi" true (start ["a"; "a/x"])).2) 1
     = ["a/x"; "a"].
Proof.
  destruct parseInstructions_permutes_in_place as [Hparse Hrun]. split.
  - apply (Hparse unix (two_slices ["a"; "a/x"] [""; "copy a/y"])
             1%positive 2%positive ["a"; "a/x"] [""; "copy a/y"]);
      [done|reflexivity..].
  - set (env := all_succeed [""; "copy a/y"]).
    pose (s1 := (editPaths env scratch "vi" 1
                   (called env (CreateTemp "" "vi-paths")
                      (start ["a"; "a/x"]))).2).
    rewrite (Hrun env example_Dir example_Base unix 1%positive "vi" true
               (start ["a"; "a/x"]) scratch 2%positive s1
               ["a"; "a/x"] [""; "copy a/y"]);
      [|vm_compute; reflexivity|vm_compute; reflexivity|reflexivity
       |vm_compute; reflexivity|reflexivity].
    vm_compute. reflexivity.
Defined.

(** * Further properties *)

(** ** Relations that every step keeps *)

Section Preserves.
Context {S : Type} (R : S -> S -> Prop).
Hypothesis R_refl : forall s, R s s.
Hypothesis R_trans : forall s1 s2 s3, R s1 s2 -> R s2 s3 -> R s1 s3.

Lemma preserves_ret {A : Type} (a : A) : preserves R (ret a).
Proof. intros s. apply R_refl. Qed.

Lemma preserves_bind {A B : Type} (c : M S A) (k : A -> M S B) :
  preserves R c -> (forall a, preserves R (k a)) -> preserves R (bind c k).
Proof.
  intros Hc Hk s. unfold bind. specialize (Hc s).
  destruct (c s) as [[a|] s1]; simpl in *; [|done].
  eapply R_trans; [exact Hc|apply Hk].
Qed.

Lemma preserves_for_each {A : Type} (l : list A) (body : A -> M S unit) :
  (forall x, preserves R (body x)) -> preserves R (for_each l body).
Proof.
  intros Hbody. induction l as [|x l IH]; simpl.
  - apply preserves_ret.
  - apply preserves_bind; [apply Hbody|]. intros _. apply IH.
Qed.

End Preserves.

(** ** The lengths of the slices never change *)

Section Lengths.
Context {T : Type}.
Implicit Types (h : store T) (m : @multiSortable T).

Lemma preserves_bind_lengths {A B : Type} (c : M (store T) A)
    (k : A -> M (store T) B) :
  preserves same_lengths c -> (forall a, preserves same_lengths (k a)) ->
  preserves same_lengths (bind c k).
Proof.
  apply preserves_bind. intros h1 h2 h3. apply same_lengths_trans.
Qed.

Lemma index_lengths d i : preserves same_lengths (@index T d i).
Proof.
  intros h. unfold index.
  destruct (elements h d !! i); apply same_lengths_refl.
Qed.

Lemma assign_lengths d i (x : T) : preserves same_lengths (assign d i x).
Proof.
  intros h. unfold assign. case_bool_decide; simpl.
  - apply same_lengths_insert. by rewrite length_insert.
  - apply same_lengths_refl.
Qed.

Lemma Swap_keeps_lengths m i j : preserves same_lengths (Swap m i j).
Proof.
  unfold Swap.
  apply (preserves_for_each same_lengths same_lengths_refl same_lengths_trans).
  intros d.
  apply preserves_bind_lengths; [apply index_lengths|]. intros x.
  apply preserves_bind_lengths; [apply index_lengths|]. intros y.
  apply preserves_bind_lengths; [apply assign_lengths|]. intros _.
  apply assign_lengths.
Qed.

Lemma Less_keeps_lengths m i j : preserves same_lengths (Less m i j).
Proof.
  unfold Less.
  apply preserves_bind_lengths; [apply index_lengths|]. intros x.
  apply preserves_bind_lengths; [apply index_lengths|]. intros y.
  apply (preserves_ret same_lengths same_lengths_refl).
Qed.

Lemma insertionSort_inner_keeps_lengths m a j :
  preserves same_lengths (insertionSort_inner m a j).
Proof.
  induction j as [|j IH]; simpl.
  { apply (preserves_ret same_lengths same_lengths_refl). }
  destruct (a <? S j)%nat;
    [|apply (preserves_ret same_lengths same_lengths_refl)].
  apply preserves_bind_lengths; [apply Less_keeps_lengths|]. intros [|].
  - apply preserves_bind_lengths; [apply Swap_keeps_lengths|]. intros _.
    apply IH.
  - apply (preserves_ret same_lengths same_lengths_refl).
Qed.

Lemma Stable_keeps_lengths m : preserves same_lengths (Stable m).
Proof.
  unfold Stable.
  apply preserves_bind_lengths; [intros h; apply same_lengths_refl|].
  intros n. unfold insertionSort.
  apply (preserves_for_each same_lengths same_lengths_refl same_lengths_trans).
  intros i. apply insertionSort_inner_keeps_lengths.
Qed.
End Lengths.

(** ** [parseInstructions] on an [after] that is too short *)

Lemma parse_loop_panics (h : store string) d e (l : list nat) acc k :
  k ∈ l -> elements h e !! k = None ->
  (for_fold l acc
     (fun instructions i =>
        let* b := index d i in
        let* a := index e i in
        ret (instructions ++ option_list (classify b a))) h).1 = Panic.
Proof.
  intros Hk He. revert acc. induction l as [|x l IH]; intros acc.
  { by apply elem_of_nil in Hk. }
  simpl. unfold bind at 1. unfold bind at 1. unfold index at 1.
  destruct (elements h d !! x) as [b|]; [|done].
  unfold bind at 1. unfold index at 1.
  destruct (elements h e !! x) as [a|] eqn:Ha; [|done].
  simpl. apply elem_of_cons in Hk as [->|Hk]; [congruence|].
  by apply IH.
Qed.

(** X1: when [after] has fewer elements than [before], [parseInstructions]
    panics, in the sort or at the first index [after] does not have. *)
Theorem parseInstructions_short_after_panics os (h : store string) d e :
  length (elements h e) < length (elements h d) ->
  (parseInstructions os d e h).1 = Panic.
Proof.
  intros Hlen. unfold parseInstructions, multiSortStable.
  pose proof (Stable_keeps_lengths
                {| data := d; extra := [e]; less := deeper os |} h) as Hs.
  unfold bind at 1.
  destruct (Stable _ h) as [[[]|] h1]; [|done]. simpl in Hs.
  unfold bind at 1. simpl.
  pose proof (parse_loop_panics h1 d e (seq 0 (length (elements h1 d))) []
                (length (elements h1 e))) as Hloop.
  unfold bind at 1.
  destruct (for_fold _ _ _ h1) as [[instructions|] h2]; [|done].
  exfalso. assert (Hp : Ret instructions = (Panic : outcome _)); [|done].
  apply Hloop.
  - apply elem_of_seq. rewrite !Hs. lia.
  - by apply lookup_ge_None.
Qed.

Lemma parseInstructions_short_after_panics_witness :
  (parseInstructions unix 1 2 (two_slices ["a"; "b/c"; "d"] ["a"; "x"])).1
  = Panic.
Proof.
  apply (parseInstructions_short_after_panics unix
           (two_slices ["a"; "b/c"; "d"] ["a"; "x"]) 1 2).
  vm_compute. lia.
Defined.

(** ** [run] never panics *)

Lemma no_panic_ret {S A : Type} (a : A) : no_panic (@ret S A a).
Proof. by intros s. Qed.

Lemma no_panic_bind {S A B : Type} (c : M S A) (k : A -> M S B) :
  no_panic c -> (forall a, no_panic (k a)) -> no_panic (bind c k).
Proof.
  intros Hc Hk s. unfold bind. specialize (Hc s).
  destruct (c s) as [[a|] s1]; simpl in *; [apply Hk|done].
Qed.

Lemma no_panic_for_each {S A : Type} (l : list A) (body : A -> M S unit) :
  (forall x, no_panic (body x)) -> no_panic (for_each l body).
Proof.
  intros Hbody. induction l as [|x l IH]; simpl.
  - apply no_panic_ret.
  - apply no_panic_bind; [apply Hbody|]. intros _. apply IH.
Qed.

Ltac no_panic_step :=
  first
    [ apply no_panic_ret
    | apply no_panic_bind; [by intros ?|intros ?]
    | match goal with
      | |- no_panic (match ?r with _ => _ end) => destruct r
      | |- no_panic (if ?b then _ else _) => destruct b
      end ].

Section RunReturns.
Variable respond : forall R : Type, list event -> call R -> R.
Variable Dir : string -> string.
Variable Base : string -> string.
Variable os : GOOS.

Lemma Execute_no_panic i : no_panic (Execute respond Dir i).
Proof.
  destruct i; simpl; unfold rename_Execute, remove_Execute, copy_Execute;
    repeat no_panic_step.
Qed.

Lemma run_loop_no_panic dryRun l : no_panic (run_loop respond Dir dryRun l).
Proof.
  induction l as [|i l IH]; simpl; [apply no_panic_ret|].
  apply no_panic_bind; [by intros ?|]. intros _. destruct dryRun; [done|].
  apply no_panic_bind; [apply Execute_no_panic|].
  intros [err|]; [apply no_panic_ret|done].
Qed.

Lemma editPaths_no_panic tmp editor before :
  no_panic (editPaths respond tmp editor before).
Proof.
  unfold editPaths.
  apply no_panic_bind; [intros s; unfold on_mem; by destruct s|]. intros names.
  apply no_panic_bind.
  { apply no_panic_for_each. intros name. repeat no_panic_step. }
  intros _. repeat no_panic_step.
Qed.

Lemma run_edited_no_panic before editor dryRun tmp :
  no_panic (run_edited respond Dir os before editor dryRun tmp).
Proof.
  unfold run_edited.
  apply no_panic_bind; [apply editPaths_no_panic|].
  intros [after|err]; [|apply no_panic_ret].
  intros s. unfold bind at 1 2, on_mem at 1 2, len. simpl.
  destruct (Nat.eqb_spec (length (elements (mem s) after))
              (length (elements (mem s) before))) as [Hlen|_]; [|done].
  simpl. unfold bind, on_mem.
  destruct (parseInstructions_total os (mem s) before after)
    as (instructions & h' & Hparse); [lia|].
  simpl. rewrite Hparse. apply run_loop_no_panic.
Qed.

(** X2: [run] never panics, whatever the environment answers: its check
    of the two lengths keeps every index of [parseInstructions] in range. *)
Theorem run_never_panics before editor dryRun s :
  exists result,
    (run respond Dir Base os before editor dryRun s).1 = Ret result.
Proof.
  assert (Hrun : no_panic (run respond Dir Base os before editor dryRun)).
  { unfold run. apply no_panic_bind; [by intros ?|].
    intros [tmp|err]; [|apply no_panic_ret].
    intros s1. unfold defer.
    pose proof (run_edited_no_panic before editor dryRun tmp s1) as Hbody.
    destruct (run_edited _ _ _ _ _ _ _ s1) as [o s2].
    simpl in *. done. }
  specialize (Hrun s).
  destruct (run _ _ _ _ _ _ _ s) as [[result|] s']; [by eexists|done].
Qed.
End RunReturns.

(** ** A dry run *)

Lemma same_changes_refl s : same_changes s s.
Proof. reflexivity. Qed.

Lemma same_changes_trans s1 s2 s3 :
  same_changes s1 s2 -> same_changes s2 s3 -> same_changes s1 s3.
Proof. unfold same_changes. congruence. Qed.

Section DryRun.
Variable respond : forall R : Type, list event -> call R -> R.
Variable Dir : string -> string.
Variable Base : string -> string.
Variable os : GOOS.

Lemma perform_same_changes {R : Type} (c : call R) :
  (forall r, touches_paths (Event c r) = false) ->
  preserves same_changes (perform respond c).
Proof.
  intros Hc s. unfold same_changes. simpl.
  rewrite filter_app, filter_cons_False, filter_nil, app_nil_r; [done|].
  by rewrite Hc.
Qed.

Lemma on_mem_same_changes {A : Type} (c : M (store string) A) :
  preserves same_changes (on_mem c).
Proof. intros s. unfold on_mem. by destruct (c (mem s)). Qed.

Lemma bind_same_changes {A B : Type} (c : M state A) (k : A -> M state B) :
  preserves same_changes c -> (forall a, preserves same_changes (k a)) ->
  preserves same_changes (bind c k).
Proof. apply preserves_bind, same_changes_trans. Qed.

Lemma ret_same_changes {A : Type} (a : A) : preserves same_changes (ret a).
Proof. apply preserves_ret, same_changes_refl. Qed.

Lemma editPaths_same_changes tmp editor before :
  preserves same_changes (editPaths respond tmp editor before).
Proof.
  unfold editPaths.
  apply bind_same_changes; [apply on_mem_same_changes|]. intros names.
  apply bind_same_changes.
  { apply (preserves_for_each same_changes same_changes_refl
             same_changes_trans).
    intros name. apply bind_same_changes; [by apply perform_same_changes|].
    intros _. apply ret_same_changes. }
  intros _. apply bind_same_changes; [by apply perform_same_changes|].
  intros [err|]; [apply ret_same_changes|].
  apply bind_same_changes; [by apply perform_same_changes|]. intros _.
  apply bind_same_changes; [by apply perform_same_changes|]. intros scanned.
  apply bind_same_changes; [by intros s|]. intros after.
  apply ret_same_changes.
Qed.

Lemma run_loop_dry_same_changes l :
  preserves same_changes (run_loop respond Dir true l).
Proof.
  induction l as [|i l IH]; simpl; [apply ret_same_changes|].
  apply bind_same_changes; [by apply perform_same_changes|]. by intros _.
Qed.

Lemma run_dry_same_changes before editor :
  preserves same_changes (run respond Dir Base os before editor true).
Proof.
  unfold run. apply bind_same_changes; [by apply perform_same_changes|].
  intros [tmp|err]; [|apply ret_same_changes].
  assert (Hbody : preserves same_changes
                    (run_edited respond Dir os before editor true tmp)).
  { unfold run_edited.
    apply bind_same_changes; [apply editPaths_same_changes|].
    intros [after|err]; [|apply ret_same_changes].
    apply bind_same_changes; [apply on_mem_same_changes|]. intros n_after.
    apply bind_same_changes; [apply on_mem_same_changes|]. intros n_before.
    destruct (negb _); [apply ret_same_changes|].
    apply bind_same_changes; [apply on_mem_same_changes|].
    intros [instructions [err|]];
      [apply ret_same_changes|apply run_loop_dry_same_changes]. }
  intros s. unfold defer. specialize (Hbody s).
  destruct (run_edited _ _ _ _ _ _ _ s) as [o s1]. simpl in *.
  eapply same_changes_trans; [exact Hbody|].
  eapply same_changes_trans;
    [by apply (perform_same_changes (FileClose tmp))
    |by apply (perform_same_changes (OsRemove (Name tmp)))].
Qed.

(** X3: in a dry run [run] makes none of the calls of the [Execute]
    methods ([os.MkdirAll], [os.Rename], [os.RemoveAll], [os.Stat],
    [os.ReadFile], [os.WriteFile]), whatever the environment answers. *)
Theorem run_dry_changes_nothing before editor s :
  filter (fun ev => touches_paths ev = true)
    (trace (run respond Dir Base os before editor true s).2)
  = filter (fun ev => touches_paths ev = true) (trace s).
Proof. apply run_dry_same_changes. Qed.

(** X4: the loop of a dry run logs every instruction, in order, makes no
    other call, and returns nil. *)
Theorem run_loop_dry_logs l s :
  run_loop respond Dir true l s
  = (Ret None,
     {| mem := mem s;
        trace := trace s
                 ++ ((fun i => Event (LogPrintf (instruction_String i)) tt)
                       <$> l) |}).
Proof.
  revert s. induction l as [|i l IH]; intros s; simpl.
  - unfold ret. rewrite app_nil_r. by destruct s.
  - rewrite (bind_Ret _ _ _ _ _ (perform_called respond _ s)), IH. simpl.
    destruct (respond unit (trace s) (LogPrintf (instruction_String i))).
    by rewrite <- app_assoc.
Qed.
End DryRun.

(** ** The calls of [Execute] *)

Ltac split_calls :=
  rewrite <- ?app_assoc; simpl;
  first
    [ exists []; eexists; split; [reflexivity|]
    | eexists [_]; eexists; split; [reflexivity|]
    | eexists [_; _]; eexists; split; [reflexivity|]
    | eexists [_; _; _]; eexists; split; [reflexivity|]
    | eexists [_; _; _; _]; eexists; split; [reflexivity|] ].

Section ExecuteCalls.
Variable respond : forall R : Type, list event -> call R -> R.
Variable Dir : string -> string.

(** X5: [Execute] stops at the first call that fails: every call it made
    but the last one succeeded, it returns nil when the last one succeeded
    too and that call's error, wrapped, otherwise; it never panics and
    leaves the slices alone. *)
Theorem Execute_stops_at_first_failure i s :
  exists evs ev,
    trace (Execute respond Dir i s).2 = trace s ++ evs ++ [ev]
    /\ mem (Execute respond Dir i s).2 = mem s
    /\ Forall (fun e => failure e = None) evs
    /\ match failure ev with
       | None => (Execute respond Dir i s).1 = Ret None
       | Some err =>
           exists format,
             (Execute respond Dir i s).1
             = Ret (Some (Errorf format [arg_err err]))
       end.
Proof.
  destruct i; simpl;
    unfold rename_Execute, remove_Execute, copy_Execute, bind, perform, ret;
    simpl;
    repeat match goal with
           | |- context [match respond ?R ?tr ?c with _ => _ end] =>
               let E := fresh "E" in
               destruct (respond R tr c) eqn:E; simpl
           | |- context [if IsDir ?st then _ else _] =>
               destruct (IsDir st); simpl
           end;
    repeat match goal with
           | H : respond _ _ _ = _ |- _ => rewrite H
           end;
    split_calls;
    (split; [reflexivity|]);
    (split; [by repeat constructor|]);
    simpl; by eauto.
Qed.

End ExecuteCalls.

(** ** The loop of [run] and what [run] always does *)

Section RunShape.
Variable respond : forall R : Type, list event -> call R -> R.
Variable Dir : string -> string.
Variable Base : string -> string.
Variable os : GOOS.

Lemma write_each_calls tmp (names : list string) s :
  exists s' evs,
    for_each names (fun name =>
      let* _ := perform respond (FileWriteString tmp (name +:+ newline)) in
      ret tt) s = (Ret tt, s')
    /\ trace s' = trace s ++ evs
    /\ made_of <$> evs
       = (fun name => Made (FileWriteString tmp (name +:+ newline))) <$> names.
Proof.
  revert s. induction names as [|name names IH]; intros s; simpl.
  { exists s, []. by rewrite app_nil_r. }
  destruct (IH (called respond (FileWriteString tmp (name +:+ newline)) s))
    as (s' & evs & Hs' & Htr & Hmade).
  eexists s', (_ :: evs). split; [|split].
  - erewrite bind_Ret; [exact Hs'|].
    by rewrite (bind_Ret _ _ _ _ _ (perform_called respond _ s)).
  - rewrite Htr. simpl. by rewrite <- app_assoc.
  - csimpl. by rewrite Hmade.
Qed.

(** X6: the instructions are applied one after the other: the loop on
    [l1 ++ l2] is the loop on [l1] and, when that returned nil, the loop on
    [l2] from the state it left; an error of [l1] is the result. *)
Theorem run_loop_app dryRun l1 l2 s :
  run_loop respond Dir dryRun (l1 ++ l2) s
  = match run_loop respond Dir dryRun l1 s with
    | (Ret None, s1) => run_loop respond Dir dryRun l2 s1
    | failed => failed
    end.
Proof.
  revert s. induction l1 as [|i l1 IH]; intros s; [done|].
  simpl. rewrite !(bind_Ret _ _ _ _ _ (perform_called respond _ s)).
  destruct dryRun; [apply IH|].
  unfold bind.
  destruct (Execute respond Dir i _) as [[[err|]|] s1]; [done|apply IH|done].
Qed.

(** X7: when the scratch file cannot be created [run] returns the error
    after that one call; when it was created, the last two calls of [run]
    are [tmp.Close()] and [os.Remove(tmp.Name())], whatever happened in
    between. *)
Theorem run_removes_scratch_file before editor dryRun s :
  match respond _ (trace s) (CreateTemp "" (Base program)) with
  | inr err =>
      run respond Dir Base os before editor dryRun s
      = (Ret (Some (Errorf "creating temp file: %w" [arg_err err])),
         called respond (CreateTemp "" (Base program)) s)
  | inl tmp =>
      exists evs closed removed,
        trace (run respond Dir Base os before editor dryRun s).2
        = evs ++ [Event (FileClose tmp) closed;
                  Event (OsRemove (Name tmp)) removed]
  end.
Proof.
  unfold run. rewrite (bind_Ret _ _ _ _ _ (perform_called respond _ s)).
  destruct (respond _ (trace s) (CreateTemp "" (Base program))) as [tmp|err];
    [|done].
  unfold defer.
  destruct (run_edited _ _ _ _ _ _ _ _) as [o s1]. simpl.
  eexists _, _, _. by rewrite <- app_assoc.
Qed.

(** X8: [editPaths] writes the elements of [before] to the scratch file,
    in order, each followed by a newline, then runs the editor on that
    file; it seeks and scans only when the editor returned no error. *)
Theorem editPaths_calls tmp editor before s :
  exists evs,
    trace (editPaths respond tmp editor before s).2 = trace s ++ evs
    /\ made_of <$> evs
       = ((fun name => Made (FileWriteString tmp (name +:+ newline)))
            <$> elements (mem s) before)
         ++ Made (CmdRun editor [Name tmp])
            :: match (editPaths respond tmp editor before s).1 with
               | Ret (inl _) =>
                   [Made (FileSeek tmp 0 io_SeekStart); Made (ScanLines tmp)]
               | _ => []
               end.
Proof.
  unfold editPaths.
  rewrite (bind_Ret _ _ s (elements (mem s) before) s) by (by destruct s).
  destruct (write_each_calls tmp (elements (mem s) before) s)
    as (s1 & evs & Hw & Htr & Hmade).
  rewrite (bind_Ret _ _ _ _ _ Hw).
  rewrite (bind_Ret _ _ _ _ _ (perform_called respond _ s1)).
  destruct (respond _ (trace s1) (CmdRun editor [Name tmp])) eqn:Hrun.
  - simpl. rewrite Htr, <- app_assoc. eexists. split; [done|].
    by rewrite fmap_app, Hmade.
  - rewrite (bind_Ret _ _ _ _ _ (perform_called respond _ _)).
    rewrite (bind_Ret _ _ _ _ _ (perform_called respond _ _)).
    unfold bind, new_slice, ret. simpl.
    rewrite Htr, <- !app_assoc. eexists. split; [done|].
    by rewrite !fmap_app, Hmade.
Qed.

(** X9: when the editor returned an error [editPaths] returns it, wrapped,
    and leaves the store as it was; otherwise it returns a slice that no
    array of the store had, with the lines the scanner returned, whether or
    not the scanner ended on an error, and every other slice is as it
    was. *)
Theorem editPaths_result tmp editor before s :
  match (editPaths respond tmp editor before s).1 with
  | Ret (inl after) =>
      mem s !! after = None
      /\ exists evs lines err,
          trace (editPaths respond tmp editor before s).2
          = evs ++ [Event (ScanLines tmp) (lines, err)]
          /\ mem (editPaths respond tmp editor before s).2
             = <[after := lines]> (mem s)
  | Ret (inr err) =>
      mem (editPaths respond tmp editor before s).2 = mem s
      /\ exists evs e,
          trace (editPaths respond tmp editor before s).2
          = evs ++ [Event (CmdRun editor [Name tmp]) (Some e)]
          /\ err = Errorf "running %q: %v" [arg_str editor; arg_err e]
  | Panic => False
  end.
Proof.
  unfold editPaths.
  rewrite (bind_Ret _ _ s (elements (mem s) before) s) by (by destruct s).
  destruct (write_each_calls tmp (elements (mem s) before) s)
    as (s1 & evs & Hw & Htr & Hmade).
  pose proof (write_each_mem respond tmp (elements (mem s) before) s)
    as (s1' & Hw' & Hmem).
  rewrite Hw in Hw'. injection Hw' as <-.
  rewrite (bind_Ret _ _ _ _ _ Hw).
  rewrite (bind_Ret _ _ _ _ _ (perform_called respond _ s1)).
  destruct (respond _ (trace s1) (CmdRun editor [Name tmp])) eqn:Hrun.
  - simpl. rewrite Hrun. split; [done|]. by eexists _, _.
  - rewrite (bind_Ret _ _ _ _ _ (perform_called respond _ _)).
    rewrite (bind_Ret _ _ _ _ _ (perform_called respond _ _)).
    unfold bind, new_slice, ret. simpl. rewrite Hmem.
    split; [apply unused_None|].
    destruct (respond _ _ (ScanLines tmp)) as [lines err] eqn:Hscan.
    by eexists _, lines, err.
Qed.
End RunShape.

(** ** [main] *)

Section Main.
Variable respond : forall R : Type, list event -> call R -> R.
Variable Dir : string -> string.
Variable Base : string -> string.
Variable os : GOOS.

(** X10: [main] checks, in this order, that a path was given, that
    [EDITOR] is set and that the editor is found; when a check fails it
    ends with that check's message, before the scratch file is created: the
    state is as it was. *)
Theorem main_checks_first p s :
  (length (elements (mem s) (flag_Args p)) = 0 ->
   main respond Dir Base os p s = (Ret (Some (Fatalf no_paths [])), s))
  /\ (length (elements (mem s) (flag_Args p)) ≠ 0 ->
      LookupEnv p "EDITOR" = None ->
      main respond Dir Base os p s
      = (Ret (Some (Fatalf "$EDITOR not set" [])), s))
  /\ (forall editor err,
        length (elements (mem s) (flag_Args p)) ≠ 0 ->
        LookupEnv p "EDITOR" = Some editor ->
        LookPath p editor = inr err ->
        main respond Dir Base os p s
        = (Ret (Some (Fatalf "$EDITOR %q not found in $PATH"
                        [arg_str editor])), s)).
Proof.
  assert (Hlen : on_mem (len (flag_Args p)) s
                 = (Ret (length (elements (mem s) (flag_Args p))), s))
    by (by destruct s).
  unfold main. rewrite (bind_Ret _ _ _ _ _ Hlen). repeat split.
  - by intros ->.
  - intros Hn Henv. by rewrite (proj2 (Nat.eqb_neq _ _) Hn), Henv.
  - intros editor err Hn Henv Hpath.
    by rewrite (proj2 (Nat.eqb_neq _ _) Hn), Henv, Hpath.
Qed.

(** X11: with [-dry-run], [main] makes none of the calls of the [Execute]
    methods, whatever the paths, the editor and the environment. *)
Theorem main_dry_run_changes_nothing p s :
  flag_dry_run p = true ->
  filter (fun ev => touches_paths ev = true)
    (trace (main respond Dir Base os p s).2)
  = filter (fun ev => touches_paths ev = true) (trace s).
Proof.
  intros Hdry. revert s.
  change (preserves same_changes (main respond Dir Base os p)).
  unfold main. rewrite Hdry.
  apply bind_same_changes; [apply on_mem_same_changes|]. intros n.
  destruct (n =? 0); [apply ret_same_changes|].
  destruct (LookupEnv p "EDITOR") as [editor|]; [|apply ret_same_changes].
  destruct (LookPath p editor); [|apply ret_same_changes].
  apply bind_same_changes; [apply run_dry_same_changes|].
  intros [err|]; apply ret_same_changes.
Qed.
End Main.

Lemma main_dry_run_changes_nothing_witness :
  filter (fun ev => touches_paths ev = true)
    (trace (main (all_succeed [""; "b"]) example_Dir example_Base unix
              dry_process (start ["a"; "b/c"])).2)
  = [].
Proof.
  apply (main_dry_run_changes_nothing (all_succeed [""; "b"]) example_Dir
           example_Base unix dry_process (start ["a"; "b/c"])).
  reflexivity.
Defined.

(** ** [Swap] and [multiSortStable] for any element type and comparison *)

Section SwapAny.
Context {T : Type}.
Implicit Types (h : store T) (m : @multiSortable T).

Lemma lookup_exchanged (l : list T) i j x y k :
  l !! j = Some x -> l !! i = Some y ->
  <[j := y]> (<[i := x]> l) !! k = l !! exchanged i j k.
Proof.
  intros Hj Hi. unfold exchanged.
  assert (i < length l) by (by eapply lookup_lt_Some).
  assert (j < length l) by (by eapply lookup_lt_Some).
  destruct (decide (k = j)) as [->|Hkj].
  - rewrite list_lookup_insert_eq by (by rewrite length_insert).
    case_decide; [congruence|done].
  - rewrite list_lookup_insert_ne by done.
    destruct (decide (k = i)) as [->|Hki].
    + by rewrite list_lookup_insert_eq.
    + by rewrite list_lookup_insert_ne.
Qed.

Lemma swap_elements_exchanged h d i j :
  i < length (elements h d) -> j < length (elements h d) ->
  exists l,
    (let* x := index d j in
     let* y := index d i in
     assign d i x ;;; assign d j y) h = (Ret tt, <[d := l]> h)
    /\ forall k, l !! k = elements h d !! exchanged i j k.
Proof.
  intros Hi Hj.
  destruct (lookup_lt_is_Some_2 _ _ Hi) as [y Hy].
  destruct (lookup_lt_is_Some_2 _ _ Hj) as [x Hx].
  rewrite (bind_Ret _ _ h x h) by (by apply index_Ret).
  rewrite (bind_Ret _ _ h y h) by (by apply index_Ret).
  erewrite bind_Ret by (by apply assign_Ret).
  rewrite assign_Ret by (by rewrite elements_insert, length_insert).
  rewrite elements_insert, insert_insert_eq.
  eexists. split; [done|]. intros k. by apply lookup_exchanged.
Qed.

Lemma swap_each_exchanged h (l : list slice) i j :
  NoDup l ->
  (forall d, d ∈ l ->
     i < length (elements h d) /\ j < length (elements h d)) ->
  exists h',
    for_each l (fun d =>
      let* x := index d j in
      let* y := index d i in
      assign d i x ;;; assign d j y) h = (Ret tt, h')
    /\ (forall d k, d ∈ l ->
          elements h' d !! k = elements h d !! exchanged i j k)
    /\ (forall d, d ∉ l -> h' !! d = h !! d).
Proof.
  intros Hnd. revert h. induction Hnd as [|d l Hd Hnd IH]; intros h Hin.
  { exists h. split; [done|]. split; [|done].
    intros d k Hd. by apply elem_of_nil in Hd. }
  destruct (Hin d) as [Hi Hj]; [by left|].
  destruct (swap_elements_exchanged h d i j Hi Hj) as (l1 & Hswap & Hl1).
  destruct (IH (<[d := l1]> h)) as (h' & Hrest & Hl & Hout).
  { intros d' Hd'. rewrite elements_insert_ne by (by intros ->).
    apply Hin. by right. }
  exists h'. split; [|split].
  - simpl. by rewrite (bind_Ret _ _ _ _ _ Hswap).
  - intros d' k Hd'. apply elem_of_cons in Hd' as [->|Hd'].
    + unfold elements at 1. rewrite (Hout d Hd).
      fold (elements (<[d := l1]> h) d). by rewrite elements_insert.
    + rewrite (Hl d' k Hd'). by rewrite elements_insert_ne by (by intros ->).
  - intros d' Hd'. apply not_elem_of_cons in Hd' as [Hne Hd'].
    rewrite (Hout d' Hd'). by rewrite lookup_insert_ne.
Qed.

(** X12: when [data] and the slices of [extra] are distinct arrays that all
    have the indices [i] and [j], [Swap(i, j)] exchanges the elements at
    [i] and [j] in each of them, leaves their other elements in place and
    leaves every other array alone. *)
Theorem Swap_exchanges h m i j :
  NoDup (data m :: extra m) ->
  (forall d, d ∈ data m :: extra m ->
     i < length (elements h d) /\ j < length (elements h d)) ->
  exists h',
    Swap m i j h = (Ret tt, h')
    /\ (forall d k, d ∈ data m :: extra m ->
          elements h' d !! k = elements h d !! exchanged i j k)
    /\ (forall d, d ∉ data m :: extra m -> h' !! d = h !! d).
Proof. apply swap_each_exchanged. Qed.
End SwapAny.

Lemma Swap_exchanges_witness :
  exists h',
    Swap {| data := 1%positive; extra := [2%positive; 3%positive];
            less := fun _ _ => false |} 0 2
      (three_slices ["a"; "b"; "c"] ["x"; "y"; "z"] ["1"; "2"; "3"])
    = (Ret tt, h')
    /\ (forall d k, d ∈ [1%positive; 2%positive; 3%positive] ->
          elements h' d !! k
          = elements
              (three_slices ["a"; "b"; "c"] ["x"; "y"; "z"] ["1"; "2"; "3"]) d
            !! exchanged 0 2 k)
    /\ (forall d, d ∉ [1%positive; 2%positive; 3%positive] ->
          h' !! d
          = three_slices ["a"; "b"; "c"] ["x"; "y"; "z"] ["1"; "2"; "3"] !! d).
Proof.
  apply (Swap_exchanges
           (three_slices ["a"; "b"; "c"] ["x"; "y"; "z"] ["1"; "2"; "3"])
           {| data := 1%positive; extra := [2%positive; 3%positive];
              less := fun _ _ => false |} 0 2).
  - simpl. compute_done.
  - simpl. intros d Hd.
    repeat (apply elem_of_cons in Hd as [->|Hd]);
      [vm_compute; lia..|by apply elem_of_nil in Hd].
Defined.

(** ** [multiSortStable] for any comparison *)

Section SortAny.
Context {T : Type} (lt : T -> T -> bool).
Implicit Types (h : store T).

End SortAny.


(** ** [multiSortStable] for a comparison that is a strict weak order *)

Section SortOrder.
Context {A : Type} (lt : A -> A -> bool).
Hypothesis lt_asym : forall a b, lt a b = true -> lt b a = false.
Hypothesis lt_trans :
  forall a b c, lt a b = false -> lt b c = false -> lt a c = false.

Lemma in_order_trans a b c :
  in_order lt a b -> in_order lt b c -> in_order lt a c.
Proof. unfold in_order. intros Hab Hbc. by apply (lt_trans c b a). Qed.

Lemma place_in_order y xs :
  StronglySorted (in_order lt) xs ->
  StronglySorted (in_order lt) (place lt y xs).
Proof.
  induction xs as [|x xs IH] using rev_ind; intros Hs.
  { repeat constructor. }
  rewrite place_snoc.
  apply StronglySorted_app in Hs as (Hlast & Hxs & _).
  destruct (lt y x) eqn:Hyx.
  - apply StronglySorted_snoc; [by apply IH|].
    apply Forall_forall. intros z Hz.
    rewrite place_Permutation in Hz. apply elem_of_app in Hz as [Hz|Hz].
    + apply Hlast; [done|]. by apply list_elem_of_singleton.
    + apply list_elem_of_singleton in Hz as ->. by apply lt_asym.
  - replace (xs ++ [x; y]) with ((xs ++ [x]) ++ [y])
      by (by rewrite <- app_assoc).
    apply StronglySorted_snoc.
    + apply StronglySorted_snoc; [done|].
      apply Forall_forall. intros z Hz. apply Hlast; [done|].
      by apply list_elem_of_singleton.
    + apply Forall_app. split; [|by apply Forall_singleton].
      apply Forall_forall. intros z Hz.
      apply (in_order_trans z x y); [|done].
      apply Hlast; [done|]. by apply list_elem_of_singleton.
Qed.

Lemma fold_place_in_order l sorted :
  StronglySorted (in_order lt) sorted ->
  StronglySorted (in_order lt)
    (fold_left (fun s y => place lt y s) l sorted).
Proof.
  revert sorted. induction l as [|y l IH]; intros sorted Hs; [done|].
  simpl. by apply IH, place_in_order.
Qed.

Lemma stable_sort_in_order l : StronglySorted (in_order lt) (stable_sort lt l).
Proof. apply fold_place_in_order. constructor. Qed.
End SortOrder.

Section SortTies.
Context {A B : Type} (lt : A -> A -> bool) (key : B -> A).
Hypothesis lt_trans :
  forall a b c, lt a b = false -> lt b c = false -> lt a c = false.



End SortTies.

Section SortsData.
Context {T : Type} (lt : T -> T -> bool).
Implicit Types (h : store T).

(** X14: for a comparison that is a strict weak order, [multiSortStable]
    on [data] and one [extra] slice of the same length leaves in [data] a
    permutation of its elements in which no element is less than one
    before it. *)
Theorem multiSortStable_sorts h d e (l k : list T) :
  (forall a b, lt a b = true -> lt b a = false) ->
  (forall a b c, lt a b = false -> lt b c = false -> lt a c = false) ->
  d ≠ e -> h !! d = Some l -> h !! e = Some k -> length l = length k ->
  exists l' k',
    multiSortStable d [e] lt h = (Ret tt, <[e := k']> (<[d := l']> h))
    /\ l' ≡ₚ l
    /\ StronglySorted (in_order lt) l'.
Proof.
  intros Hasym Htrans Hne Hd He Hlen.
  set (ps := stable_sort (on_fst lt) (zip l k)).
  assert (Hfst : ps.*1 = stable_sort lt l).
  { unfold ps. rewrite (stable_sort_fmap fst lt (on_fst lt)) by done.
    by rewrite fst_zip by lia. }
  exists (ps.*1), (ps.*2). split; [|split].
  - rewrite <- (set_pairs_zip h d e l k Hd He Hlen) at 1.
    unfold multiSortStable. by rewrite Stable_stable_sort.
  - rewrite Hfst. apply stable_sort_Permutation.
  - rewrite Hfst. by apply stable_sort_in_order.
Qed.

End SortsData.

Lemma deeper_asym os a b : deeper os a b = true -> deeper os b a = false.
Proof.
  unfold deeper. rewrite Nat.ltb_lt, Nat.ltb_ge. lia.
Qed.

Lemma deeper_trans os a b c :
  deeper os a b = false -> deeper os b c = false -> deeper os a c = false.
Proof.
  unfold deeper. rewrite !Nat.ltb_ge. lia.
Qed.

Lemma multiSortStable_sorts_witness :
  exists l' k',
    multiSortStable 1 [2%positive] (deeper unix)
      (two_slices ["a"; "b/c/d"; "e/f"] ["1"; "2"; "3"])
    = (Ret tt,
       <[2%positive := k']>
         (<[1%positive := l']>
            (two_slices ["a"; "b/c/d"; "e/f"] ["1"; "2"; "3"])))
    /\ l' ≡ₚ ["a"; "b/c/d"; "e/f"]
    /\ StronglySorted (in_order (deeper unix)) l'.
Proof.
  apply (multiSortStable_sorts (deeper unix)
           (two_slices ["a"; "b/c/d"; "e/f"] ["1"; "2"; "3"]) 1 2
           ["a"; "b/c/d"; "e/f"] ["1"; "2"; "3"]
           (deeper_asym unix) (deeper_trans unix));
    [done|reflexivity..].
Defined.


(** ** [data] passed again as [extra] *)

Section Alias.
Context {T : Type}.
Implicit Types (h : store T).

Lemma exchanged_twice i j k : exchanged i j (exchanged i j k) = k.
Proof. unfold exchanged. repeat case_decide; congruence. Qed.

Lemma Swap_alias h d lt (l : list T) i j :
  h !! d = Some l -> i < length l -> j < length l ->
  Swap {| data := d; extra := [d]; less := lt |} i j h = (Ret tt, h).
Proof.
  intros Hd Hi Hj. unfold Swap. simpl.
  assert (Hl : elements h d = l) by (unfold elements; by rewrite Hd).
  destruct (swap_elements_exchanged h d i j) as (l1 & Hswap & Hl1);
    [by rewrite Hl..|].
  rewrite (bind_Ret _ _ _ _ _ Hswap).
  assert (Hlen1 : length l1 = length l).
  { destruct (decide (length l1 = length l)) as [|Hne]; [done|exfalso].
    destruct (Nat.lt_ge_cases (length l1) (length l)) as [Hlt|Hge].
    - pose proof (Hl1 (length l1)) as H1.
      rewrite lookup_ge_None_2 in H1 by lia. symmetry in H1.
      apply lookup_ge_None_1 in H1. rewrite Hl in H1.
      unfold exchanged in H1. repeat case_decide; lia.
    - pose proof (Hl1 (length l)) as H1.
      destruct (lookup_lt_is_Some_2 l1 (length l)) as [x Hx]; [lia|].
      rewrite Hx in H1. symmetry in H1. apply lookup_lt_Some in H1.
      rewrite Hl in H1. unfold exchanged in H1. repeat case_decide; lia. }
  destruct (swap_elements_exchanged (<[d := l1]> h) d i j)
    as (l2 & Hswap2 & Hl2); [rewrite elements_insert; lia..|].
  rewrite (bind_Ret _ _ _ _ _ Hswap2). simpl. unfold ret. f_equal.
  rewrite insert_insert_eq. apply insert_id. rewrite Hd. f_equal.
  apply list_eq. intros k.
  rewrite Hl2, elements_insert, Hl1, exchanged_twice. by rewrite Hl.
Qed.

Lemma insertionSort_inner_alias h d lt (l : list T) a j :
  h !! d = Some l -> j < length l ->
  insertionSort_inner {| data := d; extra := [d]; less := lt |} a j h
  = (Ret tt, h).
Proof.
  intros Hd. induction j as [|j IH]; intros Hj; [done|].
  simpl. destruct (a <? S j); [|done].
  assert (Hl : elements h d = l) by (unfold elements; by rewrite Hd).
  destruct (lookup_lt_is_Some_2 l (S j)) as [x Hx]; [lia|].
  destruct (lookup_lt_is_Some_2 l j) as [y Hy]; [lia|].
  erewrite bind_Ret by (apply Less_Ret; simpl; rewrite Hl; eassumption).
  simpl. destruct (lt x y); [|done].
  erewrite bind_Ret by (apply (Swap_alias h d lt l); [done|lia..]).
  apply IH. lia.
Qed.

Lemma for_each_alias h d lt (l : list T) a (js : list nat) :
  h !! d = Some l -> Forall (fun j => j < length l) js ->
  for_each js
    (insertionSort_inner {| data := d; extra := [d]; less := lt |} a) h
  = (Ret tt, h).
Proof.
  intros Hd. induction 1 as [|j js Hj _ IH]; [done|].
  simpl.
  by erewrite bind_Ret
    by (by apply (insertionSort_inner_alias h d lt l)).
Qed.

(** X16: when the [data] slice is passed again as the [extra] slice,
    every [Swap] exchanges its elements twice and [multiSortStable] leaves
    the store as it was, sorted or not. *)
Theorem multiSortStable_alias h d lt (l : list T) :
  h !! d = Some l -> multiSortStable d [d] lt h = (Ret tt, h).
Proof.
  intros Hd. unfold multiSortStable, Stable.
  erewrite bind_Ret by reflexivity. simpl.
  assert (Hl : elements h d = l) by (unfold elements; by rewrite Hd).
  rewrite Hl. unfold insertionSort.
  apply (for_each_alias h d lt l); [done|].
  apply Forall_forall. intros j Hj. apply elem_of_seq in Hj. lia.
Qed.
End Alias.

Lemma multiSortStable_alias_witness :
  multiSortStable 1 [1%positive] (deeper unix)
    (two_slices ["a"; "b/c"] ["x"; "y"])
  = (Ret tt, two_slices ["a"; "b/c"] ["x"; "y"]).
Proof.
  apply (multiSortStable_alias (two_slices ["a"; "b/c"] ["x"; "y"]) 1
           (deeper unix) ["a"; "b/c"]).
  reflexivity.
Defined.

(** ** [parseInstructions]: input already in order, and a second call *)

Section ParseOrder.
Variable os : GOOS.

Lemma seq_visits_before before j n :
  (forall i k, i < k < length before ->
     depth os (before !!! k) <= depth os (before !!! i)) ->
  j + n <= length before ->
  StronglySorted (visits_before os before) (seq j n).
Proof.
  intros Hdepth. revert j. induction n as [|n IH]; intros j Hj.
  { constructor. }
  simpl. constructor; [apply IH; lia|].
  apply Forall_forall. intros k Hk. apply elem_of_seq in Hk.
  pose proof (Hdepth j k ltac:(lia)). unfold visits_before. lia.
Qed.

Lemma sort_order_in_order before :
  (forall i k, i < k < length before ->
     depth os (before !!! k) <= depth os (before !!! i)) ->
  sort_order os before = seq 0 (length before).
Proof.
  intros Hdepth. symmetry. apply stable_order_unique; [done|].
  by apply seq_visits_before.
Qed.

Lemma permuted_seq l : permuted l (seq 0 (length l)) = l.
Proof.
  apply list_eq. intros i. unfold permuted. rewrite list_lookup_fmap.
  destruct (decide (i < length l)) as [Hi|Hi].
  - rewrite lookup_seq_lt by done. simpl.
    symmetry. by apply list_lookup_lookup_total_lt.
  - rewrite lookup_seq_ge by lia. simpl. symmetry.
    apply lookup_ge_None_2. lia.
Qed.

Lemma pairs_seq (before after : list string) :
  length before = length after ->
  (fun i => (before !!! i, after !!! i)) <$> seq 0 (length before)
  = zip before after.
Proof.
  intros Hlen. apply list_eq. intros i. rewrite list_lookup_fmap.
  destruct (decide (i < length before)) as [Hi|Hi].
  - rewrite lookup_seq_lt by done. simpl. symmetry.
    apply lookup_zip_with_Some. exists (before !!! i), (after !!! i).
    split; [done|]. split; apply list_lookup_lookup_total_lt; lia.
  - rewrite lookup_seq_ge by lia. simpl. symmetry.
    apply lookup_ge_None_2. rewrite length_zip_with. lia.
Qed.

Lemma parseInstructions_in_order (h : store string) d e before after :
  d ≠ e -> h !! d = Some before -> h !! e = Some after ->
  length before = length after ->
  (forall i k, i < k < length before ->
     depth os (before !!! k) <= depth os (before !!! i)) ->
  parseInstructions os d e h
  = (Ret (instructions_of (zip before after), None), h).
Proof.
  intros Hne Hd He Hlen Hdepth.
  rewrite (parseInstructions_result os h d e before after) by done.
  rewrite sort_order_in_order by done.
  rewrite <- instructions_of_at, pairs_seq by done.
  rewrite permuted_seq, Hlen, permuted_seq.
  rewrite (insert_id h d before) by done. by rewrite insert_id.
Qed.

(** X17: when no path of [before] is deeper than one before it (all in
    one directory, or listed deepest first), [parseInstructions] leaves the
    two slices as they are and returns the instructions of the pairs in
    the order of the input. *)
Theorem parseInstructions_sorted_input
    (h : store string) d e before after :
  d ≠ e -> h !! d = Some before -> h !! e = Some after ->
  length before = length after ->
  (forall i k, i < k < length before ->
     depth os (before !!! k) <= depth os (before !!! i)) ->
  parseInstructions os d e h
  = (Ret (instructions_of (zip before after), None), h).
Proof. apply parseInstructions_in_order. Qed.

Lemma StronglySorted_lookup {A : Type} (R : A -> A -> Prop) l i k x y :
  StronglySorted R l -> l !! i = Some x -> l !! k = Some y -> i < k -> R x y.
Proof.
  intros Hs. revert i k.
  induction Hs as [|z l Hs IH Hz]; intros i k Hx Hy Hik; [done|].
  destruct k as [|k]; [lia|]. simpl in Hy. destruct i as [|i].
  - injection Hx as <-. apply (proj1 (Forall_forall _ _) Hz).
    by eapply list_elem_of_lookup_2.
  - apply (IH i k); [done..|lia].
Qed.

Lemma permuted_depth before p i k x y :
  StronglySorted (visits_before os before) p ->
  i < k -> permuted before p !! i = Some x -> permuted before p !! k = Some y ->
  depth os y <= depth os x.
Proof.
  intros Hs Hik Hx Hy. unfold permuted in Hx, Hy.
  rewrite list_lookup_fmap in Hx, Hy.
  destruct (p !! i) as [pi|] eqn:Hpi; [|done].
  destruct (p !! k) as [pk|] eqn:Hpk; [|done].
  simpl in Hx, Hy. injection Hx as <-. injection Hy as <-.
  pose proof (StronglySorted_lookup _ p i k pi pk Hs Hpi Hpk Hik) as Hv.
  unfold visits_before in Hv. lia.
Qed.

(** X18: a second call of [parseInstructions] on the slices the first one
    left returns the same instructions and changes nothing: the first call
    has put the pairs in their final order. *)
Theorem parseInstructions_twice (h : store string) d e before after :
  d ≠ e -> h !! d = Some before -> h !! e = Some after ->
  length before = length after ->
  parseInstructions os d e (parseInstructions os d e h).2
  = parseInstructions os d e h.
Proof.
  intros Hne Hd He Hlen.
  rewrite (parseInstructions_result os h d e before after) by done.
  set (p := sort_order os before). simpl.
  rewrite (parseInstructions_in_order _ d e (permuted before p)
             (permuted after p)); [|done|..].
  - f_equal. do 2 f_equal. unfold permuted.
    rewrite zip_with_fmap_l, zip_with_fmap_r, zip_with_diag.
    by rewrite <- (instructions_of_at before after p).
  - rewrite lookup_insert_ne by done. by rewrite lookup_insert_eq.
  - by rewrite lookup_insert_eq.
  - unfold permuted. by rewrite !length_fmap.
  - intros i k Hik.
    assert (Hlenp : length (permuted before p) = length before).
    { unfold permuted, p. by rewrite length_fmap, sort_order_Permutation,
        length_seq. }
    apply (permuted_depth before p i k); [apply sort_order_sorted|lia|..];
      apply list_lookup_lookup_total_lt; lia.
Qed.
End ParseOrder.

Lemma parseInstructions_sorted_input_witness :
  parseInstructions unix 1 2
    (two_slices ["a/b"; "c/d"; "e"] ["a/x"; "c/d"; ""])
  = (Ret (instructions_of (zip ["a/b"; "c/d"; "e"] ["a/x"; "c/d"; ""]), None),
     two_slices ["a/b"; "c/d"; "e"] ["a/x"; "c/d"; ""]).
Proof.
  apply (parseInstructions_sorted_input unix
           (two_slices ["a/b"; "c/d"; "e"] ["a/x"; "c/d"; ""]) 1 2
           ["a/b"; "c/d"; "e"] ["a/x"; "c/d"; ""]);
    [done|reflexivity..|].
  intros i k Hik.
  assert (i = 0 /\ k = 1 \/ i = 0 /\ k = 2 \/ i = 1 /\ k = 2)
    as [[-> ->]|[[-> ->]|[-> ->]]] by (simpl in Hik; lia);
    vm_compute; lia.
Defined.

Lemma parseInstructions_twice_witness :
  parseInstructions unix 1 2
    (parseInstructions unix 1 2
       (two_slices ["a"; "a/x"; "b"] [""; "copy a/y"; "c"])).2
  = parseInstructions unix 1 2
      (two_slices ["a"; "a/x"; "b"] [""; "copy a/y"; "c"]).
Proof.
  apply (parseInstructions_twice unix
           (two_slices ["a"; "a/x"; "b"] [""; "copy a/y"; "c"]) 1 2
           ["a"; "a/x"; "b"] [""; "copy a/y"; "c"]);
    [done|reflexivity..].
Defined.

(** ** [parseInstructions]: renames, and what the instructions act on *)

Lemma classify_rename b a :
  HasPrefix (TrimSpace a) "copy " = false ->
  TrimSpace a ≠ EmptyString -> TrimSpace a ≠ TrimSpace b ->
  classify b a = Some (rename (TrimSpace b) (TrimSpace a)).
Proof.
  intros Hcopy Hne Hab. unfold classify.
  change (cmdCopy +:+ " ") with "copy ". rewrite Hcopy.
  destruct (String.eqb_spec (TrimSpace a) "") as [He|_]; [done|].
  by destruct (String.eqb_spec (TrimSpace a) (TrimSpace b)).
Qed.

Lemma classify_None b a :
  classify b a = None
  <-> TrimSpace a = TrimSpace b /\ TrimSpace a ≠ EmptyString
      /\ HasPrefix (TrimSpace a) "copy " = false.
Proof.
  unfold classify. change (cmdCopy +:+ " ") with "copy ".
  destruct (HasPrefix (TrimSpace a) "copy ").
  { split; [done|]. by intros (_ & _ & ?). }
  destruct (String.eqb_spec (TrimSpace a) "") as [He|Hne].
  { split; [done|]. by intros (_ & ? & _). }
  destruct (String.eqb_spec (TrimSpace a) (TrimSpace b)) as [Hab|Hab]; simpl.
  - done.
  - split; [done|]. by intros (? & _).
Qed.

Lemma instructions_in_nil_inv before after p i :
  instructions_in before after p = [] -> i ∈ p ->
  classify (before !!! i) (after !!! i) = None.
Proof.
  induction p as [|j p IH]; intros Hnil Hi; [by apply elem_of_nil in Hi|].
  rewrite instructions_in_cons in Hnil.
  apply app_eq_nil in Hnil as [Hj Hp].
  apply elem_of_cons in Hi as [->|Hi]; [|by apply IH].
  unfold instruction_at in Hj. by destruct (classify _ _).
Qed.

Lemma length_instructions_in before after p :
  length (instructions_in before after p) <= length p.
Proof.
  induction p as [|i p IH]; [done|].
  rewrite instructions_in_cons, length_app. simpl.
  unfold instruction_at. destruct (classify _ _); simpl; lia.
Qed.

Section ParseKinds.
Variable os : GOOS.

(** X19: a pair whose trimmed after line is not empty, does not start
    with [copy ] and differs from the trimmed before line gives, at the
    place of its index in the order of the sort, a rename from the trimmed
    before line to the trimmed after line. *)
Theorem parseInstructions_rename
    (h : store string) d e before after i b a :
  d ≠ e -> h !! d = Some before -> h !! e = Some after ->
  length before = length after ->
  before !! i = Some b -> after !! i = Some a ->
  HasPrefix (TrimSpace a) "copy " = false ->
  TrimSpace a ≠ EmptyString -> TrimSpace a ≠ TrimSpace b ->
  exists pre post,
    sort_order os before = pre ++ i :: post /\ (i ∉ pre) /\ (i ∉ post)
    /\ (parseInstructions os d e h).1
       = Ret (instructions_in before after pre
                ++ rename (TrimSpace b) (TrimSpace a)
                   :: instructions_in before after post, None).
Proof.
  intros Hne Hd He Hlen Hb Ha Hcopy Hempty Hab.
  destruct (sort_order_split os before i) as (pre & post & Hp & Hpre & Hpost).
  { by eapply lookup_lt_Some. }
  exists pre, post. repeat split; [done..|].
  rewrite (parseInstructions_result os h d e before after) by done.
  rewrite Hp, instructions_in_app, instructions_in_cons. simpl.
  unfold instruction_at at 1.
  rewrite (list_lookup_total_correct _ _ _ Hb),
    (list_lookup_total_correct _ _ _ Ha).
  by rewrite (classify_rename b a).
Qed.

(** X20: [parseInstructions] returns no instruction exactly when every
    after line, trimmed, is the trimmed before line of its index, is not
    empty and does not start with [copy ]. *)
Theorem parseInstructions_nothing_iff (h : store string) d e before after :
  d ≠ e -> h !! d = Some before -> h !! e = Some after ->
  length before = length after ->
  (parseInstructions os d e h).1 = Ret ([], None)
  <-> forall i b a, before !! i = Some b -> after !! i = Some a ->
        TrimSpace a = TrimSpace b /\ TrimSpace a ≠ EmptyString
        /\ HasPrefix (TrimSpace a) "copy " = false.
Proof.
  intros Hne Hd He Hlen.
  rewrite (parseInstructions_result os h d e before after) by done.
  simpl. split.
  - intros Hnil i b a Hb Ha. apply classify_None.
    assert (Hin : instructions_in before after (sort_order os before) = [])
      by congruence.
    rewrite <- (list_lookup_total_correct _ _ _ Hb),
      <- (list_lookup_total_correct _ _ _ Ha).
    apply (instructions_in_nil_inv _ _ _ _ Hin).
    apply elem_of_sort_order. by eapply lookup_lt_Some.
  - intros Hall. do 2 f_equal. apply instructions_in_nil. intros i Hi.
    rewrite sort_order_Permutation in Hi. apply elem_of_seq in Hi as [_ Hi].
    destruct (lookup_lt_is_Some_2 before i) as [b Hb]; [lia|].
    destruct (lookup_lt_is_Some_2 after i) as [a Ha]; [lia|].
    unfold instruction_at.
    rewrite (list_lookup_total_correct _ _ _ Hb),
      (list_lookup_total_correct _ _ _ Ha).
    by rewrite (proj2 (classify_None b a) (Hall i b a Hb Ha)).
Qed.

(** X21: [parseInstructions] returns at most one instruction per line of
    [before], and every instruction acts on ([source]) the trimmed text of
    one of these lines. *)
Theorem parseInstructions_acts_on_input
    (h : store string) d e before after :
  d ≠ e -> h !! d = Some before -> h !! e = Some after ->
  length before = length after ->
  exists l,
    (parseInstructions os d e h).1 = Ret (l, None)
    /\ length l <= length before
    /\ Forall (fun x => exists i b,
                 before !! i = Some b /\ source x = TrimSpace b) l.
Proof.
  intros Hne Hd He Hlen.
  rewrite (parseInstructions_result os h d e before after) by done.
  eexists. split; [done|]. split.
  - etrans; [apply length_instructions_in|].
    by rewrite sort_order_Permutation, length_seq.
  - apply Forall_forall. intros x Hx.
    apply elem_of_instructions_in in Hx as (i & Hi & Hx).
    rewrite sort_order_Permutation in Hi. apply elem_of_seq in Hi as [_ Hi].
    exists i, (before !!! i). split.
    + apply list_lookup_lookup_total_lt. lia.
    + by apply source_classify in Hx.
Qed.
End ParseKinds.

Lemma parseInstructions_rename_witness :
  exists pre post,
    sort_order unix ["dir/old.txt"; "dir"] = pre ++ 0 :: post
    /\ (0 ∉ pre) /\ (0 ∉ post)
    /\ (parseInstructions unix 1 2
          (two_slices ["dir/old.txt"; "dir"] ["dir/new.txt "; "dir"])).1
       = Ret (instructions_in ["dir/old.txt"; "dir"] ["dir/new.txt "; "dir"]
                pre
                ++ rename (TrimSpace "dir/old.txt") (TrimSpace "dir/new.txt ")
                   :: instructions_in ["dir/old.txt"; "dir"]
                        ["dir/new.txt "; "dir"] post, None).
Proof.
  apply (parseInstructions_rename unix
           (two_slices ["dir/old.txt"; "dir"] ["dir/new.txt "; "dir"]) 1 2
           ["dir/old.txt"; "dir"] ["dir/new.txt "; "dir"] 0
           "dir/old.txt" "dir/new.txt ");
    [done|reflexivity..|vm_compute; discriminate|vm_compute; discriminate].
Defined.

Lemma parseInstructions_nothing_iff_witness :
  (parseInstructions unix 1 2 (two_slices ["a"; "b/c"] [" a"; "b/c "])).1
  = Ret ([], None)
  <-> forall i b a,
        ["a"; "b/c"] !! i = Some b -> [" a"; "b/c "] !! i = Some a ->
        TrimSpace a = TrimSpace b /\ TrimSpace a ≠ EmptyString
        /\ HasPrefix (TrimSpace a) "copy " = false.
Proof.
  apply (parseInstructions_nothing_iff unix
           (two_slices ["a"; "b/c"] [" a"; "b/c "]) 1 2);
    [done|reflexivity..].
Defined.

Lemma parseInstructions_acts_on_input_witness :
  exists l,
    (parseInstructions unix 1 2
       (two_slices ["a"; "a/x"; "b"] [""; "copy a/y"; "b"])).1
    = Ret (l, None)
    /\ length l <= length ["a"; "a/x"; "b"]
    /\ Forall (fun x => exists i b,
                 ["a"; "a/x"; "b"] !! i = Some b /\ source x = TrimSpace b) l.
Proof.
  apply (parseInstructions_acts_on_input unix
           (two_slices ["a"; "a/x"; "b"] [""; "copy a/y"; "b"]) 1 2
           ["a"; "a/x"; "b"] [""; "copy a/y"; "b"]);
    [done|reflexivity..].
Defined.
